(** * knuu: instance teardown and the image builder factory

    A shallow embedding of
    - [pkg/knuu/instance_destroy.go]: [Instance.Destroy] and [BatchDestroy];
    - the [container] package's [BuilderFactory]: the instruction list,
      [Changed], [PushBuilderImage], [BuildImageFromGitRepo],
      [ReadFileFromBuilder] and [GenerateImageHash].

    Go pointers to instances are locations of a store ([gmap]); the
    Kubernetes cluster, the Docker daemon, the image builder and the [os]
    package are outside the program: every call to them is appended to a
    history, and its outcome is read from a response function of the history
    so far, which makes every theorem hold for every deterministic behaviour
    of the outside world.  SHA-256 is implemented, so hashes are computed. *)

From Stdlib Require Import ZArith List Strings.String Strings.Ascii Strings.Byte Lia Bool
  Sorting.Sorted.
From stdpp Require Import base option list gmap strings.
Import ListNotations.

#[local] Set Warnings "-register-all,-clear-no-such-hyp".

(* ===================================================================== *)
(** * Go values shared by the two packages *)
(* ===================================================================== *)

(** The Go [error] interface as the two packages use it: either an error
    value produced outside the package (operating system, Docker client,
    Kubernetes client, image builder), or the package's own [Error] struct,
    which has a stable [Code], the parameters substituted by [WithParams],
    and the cause attached by [Wrap] ([Err], possibly nil). *)
Inductive error :=
| foreign (msg : string)
| coded (code : string) (params : list string) (cause : option error).

(** [(e *Error) Wrap(err)]: sets [e.Err] and returns [e]. *)
Definition Wrap (e err : error) : error :=
  match e with
  | coded c ps _ => coded c ps (Some err)
  | foreign m => foreign m
  end.

(** [WithParams(params...)]: the same code, with the parameters recorded. *)
Definition WithParams (e : error) (ps : list string) : error :=
  match e with
  | coded c _ cause => coded c ps cause
  | foreign m => foreign m
  end.

Definition code_of (e : error) : string :=
  match e with
  | coded c _ _ => c
  | foreign _ => ""
  end.

(** The line feed, the separator of [strings.Join(..., "\n")]. *)
Definition LF : string := String (ascii_of_nat 10) EmptyString.

(** [strings.Join(elems, sep)]. *)
Definition Join (elems : list string) (sep : string) : string :=
  String.concat sep elems.

(* ===================================================================== *)
(** * [crypto/sha256] *)
(* ===================================================================== *)

Module Sha256.
Open Scope Z_scope.

Definition mask32 : Z := 4294967295.
Definition w32 (x : Z) : Z := Z.land x mask32.
Definition add32 (x y : Z) : Z := w32 (x + y).
Definition rotr (n x : Z) : Z :=
  Z.lor (Z.shiftr x n) (w32 (Z.shiftl x (32 - n))).
Definition not32 (x : Z) : Z := Z.lxor x mask32.

Definition Ch (x y z : Z) : Z := Z.lxor (Z.land x y) (Z.land (not32 x) z).
Definition Maj (x y z : Z) : Z :=
  Z.lxor (Z.lxor (Z.land x y) (Z.land x z)) (Z.land y z).
Definition bsig0 (x : Z) : Z := Z.lxor (Z.lxor (rotr 2 x) (rotr 13 x)) (rotr 22 x).
Definition bsig1 (x : Z) : Z := Z.lxor (Z.lxor (rotr 6 x) (rotr 11 x)) (rotr 25 x).
Definition ssig0 (x : Z) : Z := Z.lxor (Z.lxor (rotr 7 x) (rotr 18 x)) (Z.shiftr x 3).
Definition ssig1 (x : Z) : Z := Z.lxor (Z.lxor (rotr 17 x) (rotr 19 x)) (Z.shiftr x 10).

(** The constants of the standard, from their definition: the first 64
    primes; the first 32 bits of the fractional part of their cube roots
    (the round constants) and, for the first eight, of their square roots
    (the initial hash value). *)
Definition is_prime (n : Z) : bool :=
  forallb (fun d => negb (n mod d =? 0)) (List.map Z.of_nat (seq 2 (Z.to_nat n - 2))).

Definition primes : list Z :=
  Eval vm_compute in List.filter is_prime (List.map Z.of_nat (seq 2 310)).

(** The largest [r] below [2^40] with [r^3 <= n], bit by bit. *)
Definition cube_root (n : Z) : Z :=
  fold_left (fun r bit => let r' := r + Z.shiftl 1 bit in
                          if r' * r' * r' <=? n then r' else r)
            (List.map Z.of_nat (rev (seq 0 40))) 0.

Definition K : list Z :=
  Eval vm_compute in
    List.map (fun p => w32 (cube_root (Z.shiftl p 96))) primes.

Definition H0 : list Z :=
  Eval vm_compute in
    List.map (fun p => w32 (Z.sqrt (Z.shiftl p 64))) (firstn 8 primes).

Definition byte_to_Z (b : byte) : Z := Z.of_N (Byte.to_N b).
Definition byte_of_Z (z : Z) : byte :=
  match Byte.of_N (Z.to_N (Z.land z 255)) with
  | Some b => b
  | None => x00
  end.

(** Big-endian encodings of a 32-bit and of a 64-bit word. *)
Definition be32 (x : Z) : list byte :=
  [byte_of_Z (Z.shiftr x 24); byte_of_Z (Z.shiftr x 16);
   byte_of_Z (Z.shiftr x 8); byte_of_Z x].
Definition be64 (x : Z) : list byte := be32 (Z.shiftr x 32) ++ be32 x.

(** The message, one [0x80], zeros up to 56 modulo 64, the bit length. *)
Definition pad (msg : list byte) : list byte :=
  let len := Z.of_nat (List.length msg) in
  let zeros := Z.to_nat ((55 - len) mod 64) in
  msg ++ [x80] ++ repeat x00 zeros ++ be64 (8 * len).

Fixpoint words (bs : list byte) : list Z :=
  match bs with
  | a :: b :: c :: d :: rest =>
      (Z.shiftl (byte_to_Z a) 24 + Z.shiftl (byte_to_Z b) 16
       + Z.shiftl (byte_to_Z c) 8 + byte_to_Z d) :: words rest
  | _ => []
  end.

Fixpoint blocks (fuel : nat) (ws : list Z) : list (list Z) :=
  match fuel, ws with
  | S fuel', _ :: _ => firstn 16 ws :: blocks fuel' (skipn 16 ws)
  | _, _ => []
  end.

Definition wnth (w : list Z) (i : nat) : Z := nth i w 0.

(** The message schedule: [n] more words after the ones of [w]. *)
Fixpoint schedule (n : nat) (w : list Z) : list Z :=
  match n with
  | O => w
  | S n' =>
      let t := List.length w in
      let x := add32 (add32 (ssig1 (wnth w (t - 2))) (wnth w (t - 7)))
                     (add32 (ssig0 (wnth w (t - 15))) (wnth w (t - 16))) in
      schedule n' (w ++ [x])
  end.

Record regs := Regs { ra : Z; rb : Z; rc : Z; rd : Z; re : Z; rf : Z; rg : Z; rh : Z }.

Definition round (r : regs) (kw : Z * Z) : regs :=
  let '(k, w) := kw in
  let t1 := add32 (add32 (add32 (rh r) (bsig1 (re r)))
                         (add32 (Ch (re r) (rf r) (rg r)) k)) w in
  let t2 := add32 (bsig0 (ra r)) (Maj (ra r) (rb r) (rc r)) in
  Regs (add32 t1 t2) (ra r) (rb r) (rc r) (add32 (rd r) t1) (re r) (rf r) (rg r).

Definition regs_of (h : list Z) : regs :=
  Regs (wnth h 0) (wnth h 1) (wnth h 2) (wnth h 3)
       (wnth h 4) (wnth h 5) (wnth h 6) (wnth h 7).

Definition compress (h : list Z) (block : list Z) : list Z :=
  let w := schedule 48 block in
  let r := fold_left round (combine K w) (regs_of h) in
  [add32 (wnth h 0) (ra r); add32 (wnth h 1) (rb r); add32 (wnth h 2) (rc r);
   add32 (wnth h 3) (rd r); add32 (wnth h 4) (re r); add32 (wnth h 5) (rf r);
   add32 (wnth h 6) (rg r); add32 (wnth h 7) (rh r)].

(** [sha256.Sum256]: the 32-byte digest of a message. *)
Definition Sum256 (msg : list byte) : list byte :=
  let ws := words (pad msg) in
  flat_map be32 (fold_left compress (blocks (List.length ws) ws) H0).

(** The [hash.Hash] returned by [sha256.New()]: the bytes written so far.
    [Write] appends and, as the package documents, never returns an error;
    [Sum(nil)] is the digest of everything written. *)
Definition Hash := list byte.
Definition New : Hash := [].
Definition Write (h : Hash) (p : list byte) : Hash * option error := (h ++ p, None).
Definition Sum (h : Hash) : list byte := Sum256 h.

End Sha256.

(** [fmt.Sprintf("%x", b)] on a byte slice: two lowercase hexadecimal digits
    per byte. *)
Definition hexdigit (n : Z) : ascii :=
  ascii_of_nat (Z.to_nat (if (n <? 10)%Z then 48 + n else 87 + n)%Z).
Definition hex_byte (b : byte) : string :=
  let z := Sha256.byte_to_Z b in
  String (hexdigit (Z.shiftr z 4)) (String (hexdigit (Z.land z 15)) EmptyString).
Fixpoint Sprintf_x (bs : list byte) : string :=
  match bs with
  | [] => EmptyString
  | b :: rest => hex_byte b +:+ Sprintf_x rest
  end.

(* ===================================================================== *)
(** * Package [container]: the builder factory *)
(* ===================================================================== *)

Module container.

(** ** Error values

    The package's [errors.go] follows the pattern of the error table that is
    part of the sources: [ErrX = &Error{Code: "X", ...}]. *)
Definition ErrCreatingDockerClient := coded "CreatingDockerClient" [] None.
Definition ErrFailedToCreateContextDir := coded "FailedToCreateContextDir" [] None.
Definition ErrNoImageNameProvided := coded "NoImageNameProvided" [] None.
Definition ErrFailedToCreateContainer := coded "FailedToCreateContainer" [] None.
Definition ErrFailedToStartContainer := coded "FailedToStartContainer" [] None.
Definition ErrFailedToStopContainer := coded "FailedToStopContainer" [] None.
Definition ErrFailedToRemoveContainer := coded "FailedToRemoveContainer" [] None.
Definition ErrFailedToCopyFileFromContainer := coded "FailedToCopyFileFromContainer" [] None.
Definition ErrFailedToReadFromTar := coded "FailedToReadFromTar" [] None.
Definition ErrFailedToReadFileFromTar := coded "FailedToReadFileFromTar" [] None.
Definition ErrFileNotFoundInTar := coded "FileNotFoundInTar" [] None.
Definition ErrFailedToWriteDockerfile := coded "FailedToWriteDockerfile" [] None.
Definition ErrFailedToGetBuildContext := coded "FailedToGetBuildContext" [] None.
Definition ErrFailedToGetDefaultCacheOptions := coded "FailedToGetDefaultCacheOptions" [] None.
Definition ErrHashingDockerfile := coded "HashingDockerfile" [] None.
Definition ErrReadingFile := coded "ReadingFile" [] None.
Definition ErrHashingFile := coded "HashingFile" [] None.
Definition ErrHashingBuildContext := coded "HashingBuildContext" [] None.

(** ** The factory *)

(** [BuilderFactory]. The fields [cli] and [imageBuilder] are handles on the
    Docker daemon and on the image builder; both live in the [World] below. *)
Record BuilderFactory := {
  imageNameFrom : string;
  imageNameTo : string;
  dockerFileInstructions : list string;
  buildContext : string
}.

Definition set_instructions (f : BuilderFactory) (l : list string) : BuilderFactory :=
  {| imageNameFrom := imageNameFrom f; imageNameTo := imageNameTo f;
     dockerFileInstructions := l; buildContext := buildContext f |}.

Definition set_imageNameTo (f : BuilderFactory) (name : string) : BuilderFactory :=
  {| imageNameFrom := imageNameFrom f; imageNameTo := name;
     dockerFileInstructions := dockerFileInstructions f;
     buildContext := buildContext f |}.

(** ** The world outside the package *)

(** One entry of the archive stream of [CopyFromContainer], as
    [tar.Reader.Next] and [io.ReadAll] see it: a header with its type flag
    and name, whose body either reads to the end or fails; or a place where
    [Next] fails with an error other than [io.EOF]. The end of the list is
    [io.EOF]. *)
Inductive TarItem :=
| Header (typeflag : ascii) (name : string) (body : error + list byte)
| Damaged (err : error).

(** [tar.TypeReg], the character 0. *)
Definition TypeReg : ascii := ascii_of_nat 48.
(** [tar.TypeDir], the character 5. *)
Definition TypeDir : ascii := ascii_of_nat 53.

(** The build context handed to the builder: what
    [builder.DirContext{Path: path}.BuildContext()] stands for, or the
    context that a git reference resolved to. *)
Inductive BuildContext :=
| DirContext (path : string)
| Resolved (ctx : string).

(** [builder.BuilderOptions]. *)
Record BuilderOptions := {
  ImageName : string;
  Destination : string;
  BuildCtx : BuildContext;
  Cache : option string
}.

(** The calls that leave the package. *)
Inductive Call :=
| NewClientWithOpts
| OsMkdirAll (path : string) (perm : Z)
| OsStat (path : string)
| OsWriteFile (path : string) (data : list byte) (perm : Z)
| BuilderBuild (opts : BuilderOptions)
| GitBuildContext (repo : string)
| CacheDefault (buildCtx : string)
| ContainerCreate (image : string) (cmd : list string)
| ContainerStart (id : string)
| CopyFromContainer (id : string) (srcPath : string)
| ReaderClose (id : string)
| ContainerStop (id : string) (timeout : Z)
| ContainerRemove (id : string).

(** What a call answers. *)
Inductive Reply :=
| finished
| fail (err : error)
| not_exist (err : error)
| ident (id : string)
| text (s : string)
| archive (items : list TarItem).

(** The error of a reply ([nil] when there is none), whether
    [os.IsNotExist] holds of it, and its payloads (the zero value when the
    reply carries another one). *)
Definition reply_err (r : Reply) : option error :=
  match r with
  | fail e | not_exist e => Some e
  | _ => None
  end.
Definition IsNotExist (r : Reply) : bool :=
  match r with
  | not_exist _ => true
  | _ => false
  end.
Definition reply_id (r : Reply) : string :=
  match r with
  | ident s => s
  | _ => ""
  end.
Definition reply_text (r : Reply) : string :=
  match r with
  | text s => s
  | _ => ""
  end.
Definition reply_archive (r : Reply) : list TarItem :=
  match r with
  | archive l => l
  | _ => []
  end.

(** The outside world: the calls made so far, oldest first, and how it
    answers the next call after a given history. *)
Record World := {
  respond : list Call -> Call -> Reply;
  calls : list Call
}.

(** Make a call: read the answer, record the call. *)
Definition call (c : Call) (w : World) : Reply * World :=
  (respond w (calls w) c, {| respond := respond w; calls := calls w ++ [c] |}).

(** ** Construction and the instruction list *)

(** [NewBuilderFactory]. *)
Definition NewBuilderFactory (imageName buildContext : string) (w : World)
  : (error + BuilderFactory) * World :=
  let '(r, w) := call NewClientWithOpts w in
  match reply_err r with
  | Some err => (inl (Wrap ErrCreatingDockerClient err), w)
  | None =>
      let '(r, w) := call (OsMkdirAll buildContext 493) w in
      match reply_err r with
      | Some err => (inl (Wrap ErrFailedToCreateContextDir err), w)
      | None =>
          (inr {| imageNameFrom := imageName;
                  imageNameTo := "";
                  dockerFileInstructions := ["FROM " +:+ imageName];
                  buildContext := buildContext |}, w)
      end
  end.

Definition ImageNameFrom (f : BuilderFactory) : string := imageNameFrom f.

Definition append_instruction (f : BuilderFactory) (s : string) : BuilderFactory :=
  set_instructions f (dockerFileInstructions f ++ [s]).

(** [ExecuteCmdInBuilder]: records a [RUN] line, returns the empty output. *)
Definition ExecuteCmdInBuilder (f : BuilderFactory) (command : list string)
  : BuilderFactory * (string * option error) :=
  (append_instruction f ("RUN " +:+ Join command " "), ("", None)).

(** [AddToBuilder]. *)
Definition AddToBuilder (f : BuilderFactory) (srcPath destPath chown : string)
  : BuilderFactory * option error :=
  (append_instruction f
     ("ADD --chown=" +:+ chown +:+ " " +:+ srcPath +:+ " " +:+ destPath), None).

(** [SetEnvVar]. *)
Definition SetEnvVar (f : BuilderFactory) (name value : string)
  : BuilderFactory * option error :=
  (append_instruction f ("ENV " +:+ name +:+ "=" +:+ value), None).

(** [SetUser]. *)
Definition SetUser (f : BuilderFactory) (user : string)
  : BuilderFactory * option error :=
  (append_instruction f ("USER " +:+ user), None).

(** [Changed]: [len(f.dockerFileInstructions) > 1]. *)
Definition Changed (f : BuilderFactory) : bool :=
  Nat.ltb 1 (List.length (dockerFileInstructions f)).

(** The calls of the public interface that only record an instruction, and
    the factories a caller gets from [NewBuilderFactory] through them. *)
Inductive Edit :=
| EditExecuteCmd (command : list string)
| EditAdd (srcPath destPath chown : string)
| EditSetEnv (name value : string)
| EditSetUser (user : string).

Definition apply_edit (f : BuilderFactory) (e : Edit) : BuilderFactory :=
  match e with
  | EditExecuteCmd command => fst (ExecuteCmdInBuilder f command)
  | EditAdd s d c => fst (AddToBuilder f s d c)
  | EditSetEnv n v => fst (SetEnvVar f n v)
  | EditSetUser u => fst (SetUser f u)
  end.

Definition edited (f0 : BuilderFactory) (es : list Edit) : BuilderFactory :=
  fold_left apply_edit es f0.

(** ** [PushBuilderImage] and [BuildImageFromGitRepo]

    The log lines and the switch of the log formatter around the build logs
    touch the logger only and are left out. *)

Definition DefaultTimeout : Z := 2 * 60 * 1000000000.

(** [filepath.Join] of a directory and a name. *)
Definition path_join (dir name : string) : string := dir +:+ "/" +:+ name.

Definition PushBuilderImage (f : BuilderFactory) (imageName : string) (w : World)
  : BuilderFactory * option error * World :=
  if negb (Changed f) then (f, None, w)
  else
    let f := set_imageNameTo f imageName in
    let dockerFilePath := path_join (buildContext f) "Dockerfile" in
    let '(r, w) := call (OsStat (buildContext f)) w in
    let '(mk, w) :=
      if IsNotExist r
      then let '(r, w) := call (OsMkdirAll (buildContext f) 493) w in (reply_err r, w)
      else (None, w) in
    match mk with
    | Some err => (f, Some (Wrap ErrFailedToCreateContextDir err), w)
    | None =>
        let dockerFile := Join (dockerFileInstructions f) LF in
        let '(r, w) :=
          call (OsWriteFile dockerFilePath (list_byte_of_string dockerFile) 420) w in
        match reply_err r with
        | Some err => (f, Some (Wrap ErrFailedToWriteDockerfile err), w)
        | None =>
            let '(r, w) :=
              call (BuilderBuild {| ImageName := imageNameTo f;
                                    Destination := imageNameTo f;
                                    BuildCtx := DirContext (buildContext f);
                                    Cache := None |}) w in
            (f, reply_err r, w)
        end
    end.

Definition BuildImageFromGitRepo (f : BuilderFactory) (gitRepo imageName : string)
  (w : World) : BuilderFactory * option error * World :=
  let '(r, w) := call (GitBuildContext gitRepo) w in
  match reply_err r with
  | Some err => (f, Some (Wrap ErrFailedToGetBuildContext err), w)
  | None =>
      let buildCtx := reply_text r in
      let f := set_imageNameTo f imageName in
      let '(r, w) := call (CacheDefault buildCtx) w in
      match reply_err r with
      | Some err => (f, Some (Wrap ErrFailedToGetDefaultCacheOptions err), w)
      | None =>
          let cOpts := reply_text r in
          let '(r, w) :=
            call (BuilderBuild {| ImageName := imageName;
                                  Destination := imageName;
                                  BuildCtx := Resolved buildCtx;
                                  Cache := Some cOpts |}) w in
          (f, reply_err r, w)
      end
  end.

(** ** [ReadFileFromBuilder] *)

(** The loop over the archive: the first header whose type flag is
    [tar.TypeReg] decides; other headers are skipped; the end of the archive
    leaves the loop. [None] stands for leaving the loop by [break]. *)
Fixpoint read_tar (items : list TarItem) : option (error + list byte) :=
  match items with
  | [] => None
  | Damaged err :: _ => Some (inl (Wrap ErrFailedToReadFromTar err))
  | Header typeflag _ body :: rest =>
      if Ascii.eqb typeflag TypeReg then
        match body with
        | inl err => Some (inl (Wrap ErrFailedToReadFileFromTar err))
        | inr data => Some (inr data)
        end
      else read_tar rest
  end.

(** The deferred function: stop the container, then remove it; a failure
    of either is logged as a warning and changes nothing else. *)
Definition stop_and_remove (id : string) (w : World) : World :=
  let timeout := (10 * 1000000000)%Z in
  let '(_, w) := call (ContainerStop id timeout) w in
  let '(_, w) := call (ContainerRemove id) w in
  w.

(** What runs between the registration of the deferred function and its
    execution. *)
Definition read_started (id filePath : string) (w : World)
  : (error + list byte) * World :=
  let '(r, w) := call (ContainerStart id) w in
  match reply_err r with
  | Some err => (inl (Wrap ErrFailedToStartContainer err), w)
  | None =>
      let '(r, w) := call (CopyFromContainer id filePath) w in
      match reply_err r with
      | Some err => (inl (Wrap ErrFailedToCopyFileFromContainer err), w)
      | None =>
          let res :=
            match read_tar (reply_archive r) with
            | Some res => res
            | None => inl ErrFileNotFoundInTar
            end in
          (* defer reader.Close() *)
          let '(_, w) := call (ReaderClose id) w in
          (res, w)
      end
  end.

Definition ReadFileFromBuilder (f : BuilderFactory) (filePath : string) (w : World)
  : (error + list byte) * World :=
  if String.eqb (imageNameTo f) "" then (inl ErrNoImageNameProvided, w)
  else
    let '(r, w) :=
      call (ContainerCreate (imageNameTo f) ["tail"; "-f"; "/dev/null"]) w in
    match reply_err r with
    | Some err => (inl (Wrap ErrFailedToCreateContainer err), w)
    | None =>
        let id := reply_id r in
        let '(res, w) := read_started id filePath w in
        (res, stop_and_remove id w)
    end.

(** ** [GenerateImageHash] *)

(** What [os.Lstat] finds at a path of the build context: a regular file
    with its bytes, a non-directory that [os.ReadFile] fails on, a directory
    with its entries as the operating system lists them (in any order), or a
    directory that cannot be listed. *)
Inductive node :=
| File (content : list byte)
| NoRead (err : error)
| Dir (entries : list (string * node))
| NoList (err : error).

(** The file system: what is at a path, or the error of [os.Lstat]. *)
Definition FileSystem := string -> error + node.

Definition IsDir (info : node) : bool :=
  match info with
  | Dir _ | NoList _ => true
  | File _ | NoRead _ => false
  end.

Definition ReadFile (n : node) : error + list byte :=
  match n with
  | File c => inr c
  | NoRead err => inl err
  | Dir _ | NoList _ => inl (foreign "is a directory")
  end.

(** A [filepath.WalkFunc] that carries the hasher it writes to. *)
Definition WalkFunc :=
  string -> node -> option error -> Sha256.Hash -> Sha256.Hash * option error.

(** The names of a directory in the order of [sort.Strings]. *)
Fixpoint insert_by_name {A} (e : string * A) (l : list (string * A))
  : list (string * A) :=
  match l with
  | [] => [e]
  | x :: r =>
      if String.leb (fst e) (fst x) then e :: l else x :: insert_by_name e r
  end.
Definition sort_by_name {A} (l : list (string * A)) : list (string * A) :=
  fold_right insert_by_name [] l.

(** The loop of [filepath.walk] over the sorted names of a directory: the
    first error ends the walk. *)
Fixpoint walk_names (path : string)
  (vs : list (string * (string -> Sha256.Hash -> Sha256.Hash * option error)))
  (h : Sha256.Hash) : Sha256.Hash * option error :=
  match vs with
  | [] => (h, None)
  | (name, v) :: rest =>
      match v (path_join path name) h with
      | (h', None) => walk_names path rest h'
      | (h', Some err) => (h', Some err)
      end
  end.

(** [filepath.walk]: the function is called on the entry itself; a
    directory that lists is then walked in the lexical order of its names.
    ([filepath.SkipDir] is never returned by the function below, so the
    cases that look for it are left out.) *)
Fixpoint walk (fn : WalkFunc) (n : node) (path : string) (h : Sha256.Hash)
  {struct n} : Sha256.Hash * option error :=
  match n with
  | File _ | NoRead _ => fn path n None h
  | NoList err => fn path n (Some err) h
  | Dir entries =>
      match fn path n None h with
      | (h', Some err1) => (h', Some err1)
      | (h', None) =>
          walk_names path
            (sort_by_name
               (List.map (fun e => let '(name, child) := e in (name, walk fn child))
                         entries))
            h'
      end
  end.

(** [filepath.Walk]. *)
Definition Walk (fs : FileSystem) (root : string) (fn : WalkFunc) (h : Sha256.Hash)
  : Sha256.Hash * option error :=
  match fs root with
  | inl err => fn root (NoList err) (Some err) h
  | inr info => walk fn info root h
  end.

(** The function literal that [GenerateImageHash] passes to the walk. *)
Definition hash_entry : WalkFunc := fun path info err hasher =>
  match err with
  | Some err => (hasher, Some err)
  | None =>
      if negb (IsDir info) then
        match ReadFile info with
        | inl err => (hasher, Some (Wrap (WithParams ErrReadingFile [path]) err))
        | inr fileContent =>
            match Sha256.Write hasher fileContent with
            | (hasher, Some err) =>
                (hasher, Some (Wrap (WithParams ErrHashingFile [path]) err))
            | (hasher, None) => (hasher, None)
            end
        end
      else (hasher, None)
  end.

Definition GenerateImageHash (f : BuilderFactory) (fs : FileSystem)
  : string * option error :=
  let hasher := Sha256.New in
  let dockerFileContent := Join (dockerFileInstructions f) LF in
  match Sha256.Write hasher (list_byte_of_string dockerFileContent) with
  | (_, Some err) => ("", Some (Wrap ErrHashingDockerfile err))
  | (hasher, None) =>
      match Walk fs (buildContext f) hash_entry hasher with
      | (_, Some err) => ("", Some (Wrap ErrHashingBuildContext err))
      | (hasher, None) => (Sprintf_x (Sha256.Sum hasher), None)
      end
  end.

(** ** Vocabulary of the statements about [ReadFileFromBuilder] *)

(** The call that creates the throwaway container, and the timeout handed
    to [ContainerStop]. *)
Definition create_call (f : BuilderFactory) : Call :=
  ContainerCreate (imageNameTo f) ["tail"; "-f"; "/dev/null"].
Definition stop_timeout : Z := 10 * 1000000000.

(** An entry that the loop over the archive passes over: a header whose
    type flag is not [tar.TypeReg]. *)
Definition skipped (it : TarItem) : bool :=
  match it with
  | Header typeflag _ _ => negb (Ascii.eqb typeflag TypeReg)
  | Damaged _ => false
  end.

(** The last element of a slash-separated path. *)
Fixpoint last_element (s acc : string) : string :=
  match s with
  | EmptyString => acc
  | String c rest =>
      if Ascii.eqb c "/" then last_element rest EmptyString
      else last_element rest (acc +:+ String c EmptyString)
  end.
Definition Base (path : string) : string := last_element path EmptyString.

(** In the words of the specification: a regular-file entry matching the
    requested path, by its full name or by its last element (the name under
    which the daemon archives a single file). *)
Definition matching_regular (filePath : string) (it : TarItem) : bool :=
  match it with
  | Header typeflag name _ =>
      Ascii.eqb typeflag TypeReg
      && (String.eqb name filePath || String.eqb name (Base filePath))
  | Damaged _ => false
  end.

(** The container was created as [id] and started, and the copy of
    [filePath] delivered the archive [items]. *)
Definition copied (f : BuilderFactory) (filePath : string) (w : World)
  (id : string) (items : list TarItem) : Prop :=
  let h1 := calls w ++ [create_call f] in
  let h2 := h1 ++ [ContainerStart id] in
  reply_err (respond w (calls w) (create_call f)) = None /\
  reply_id (respond w (calls w) (create_call f)) = id /\
  reply_err (respond w h1 (ContainerStart id)) = None /\
  reply_err (respond w h2 (CopyFromContainer id filePath)) = None /\
  reply_archive (respond w h2 (CopyFromContainer id filePath)) = items.

(** ** A factory and a daemon

    A factory after one [RUN] line and a push; a daemon that creates the
    container [c1], starts it, and answers every copy with a given archive;
    the archive of the directory [/data], which holds two files. *)
Definition base_factory : BuilderFactory :=
  {| imageNameFrom := "alpine"; imageNameTo := "";
     dockerFileInstructions := ["FROM alpine"]; buildContext := "/ctx" |}.

Definition pushed_factory : BuilderFactory :=
  {| imageNameFrom := "alpine"; imageNameTo := "ttl.sh/app:1h";
     dockerFileInstructions := ["FROM alpine"; "RUN echo hi"];
     buildContext := "/ctx" |}.

Definition daemon (items : list TarItem) : list Call -> Call -> Reply :=
  fun _ c =>
    match c with
    | ContainerCreate _ _ => ident "c1"
    | CopyFromContainer _ _ => archive items
    | _ => finished
    end.

Definition data_archive : list TarItem :=
  [Header TypeDir "data/" (inr []);
   Header TypeReg "data/a.txt" (inr [x41]);
   Header TypeReg "data/b.txt" (inr [x42])].

Definition host (items : list TarItem) : World :=
  {| respond := daemon items; calls := [] |}.

(** ** Vocabulary of the statements about [GenerateImageHash] *)

(** The concatenation of byte strings that are all there. *)
Fixpoint concat_all (l : list (option (list byte))) : option (list byte) :=
  match l with
  | [] => Some []
  | o :: rest =>
      match o, concat_all rest with
      | Some c, Some r => Some (c ++ r)
      | _, _ => None
      end
  end.

(** The bytes of the regular files under a node, directory by directory in
    the lexical order of the names; nothing when something under the node
    cannot be read or listed. *)
Fixpoint files_of (n : node) : option (list byte) :=
  match n with
  | File c => Some c
  | NoRead _ | NoList _ => None
  | Dir entries =>
      concat_all
        (List.map snd
           (sort_by_name
              (List.map (fun e => let '(name, child) := e in (name, files_of child))
                        entries)))
  end.

(** The bytes that a factory and a file system feed to SHA-256: the
    instructions joined by line feeds, then the files of the build context. *)
Definition hashed (f : BuilderFactory) (fs : FileSystem) : option (list byte) :=
  match fs (buildContext f) with
  | inl _ => None
  | inr n =>
      match files_of n with
      | Some c =>
          Some (list_byte_of_string (Join (dockerFileInstructions f) LF) ++ c)
      | None => None
      end
  end.

(** The order of [sort.Strings] on the entries of a directory. *)
Definition by_name {A} (a b : string * A) : Prop := String.leb a.1 b.1 = true.

(** An entry paired with itself. *)
Definition both (e : string * node) : string * (node * node) := (e.1, (e.2, e.2)).

(** What a walk that hashes does with a node: it appends the files, or it
    stops with an error. *)
Definition appends (n : node) : Prop :=
  forall path h,
    match files_of n with
    | Some c => walk hash_entry n path h = (h ++ c, None)
    | None => exists h' e, walk hash_entry n path h = (h', Some e)
    end.

(** Two nodes hold the same files: the same bytes under the same names,
    whatever the order in which the operating system lists a directory (the
    names of a directory are distinct). *)
Inductive same_tree : node -> node -> Prop :=
| same_File c : same_tree (File c) (File c)
| same_NoRead e e' : same_tree (NoRead e) (NoRead e')
| same_NoList e e' : same_tree (NoList e) (NoList e')
| same_Dir es es' es2 :
    NoDup (List.map fst es) ->
    Permutation es' es2 ->
    Forall2 (fun a b => a.1 = b.1 /\ same_tree a.2 b.2) es es2 ->
    same_tree (Dir es) (Dir es').

Definition same_context (a b : error + node) : Prop :=
  match a, b with
  | inr n1, inr n2 => same_tree n1 n2
  | inl _, inl _ => True
  | _, _ => False
  end.

(** One byte of one file under a node was changed. *)
Inductive byte_changed : node -> node -> Prop :=
| changed_here pre b b' post :
    b <> b' -> byte_changed (File (pre ++ b :: post)) (File (pre ++ b' :: post))
| changed_below es1 name n n' es2 :
    byte_changed n n' ->
    byte_changed (Dir (es1 ++ (name, n) :: es2)) (Dir (es1 ++ (name, n') :: es2)).

(** A string holds a line feed. *)
Fixpoint has_LF (s : string) : bool :=
  match s with
  | EmptyString => false
  | String c rest => Ascii.eqb c (ascii_of_nat 10) || has_LF rest
  end.

(** One change of the input of [GenerateImageHash]: an instruction added to
    (or removed from) a list that holds the [FROM] line, instructions
    without line feeds put in another order, or one byte of one file of the
    build context changed. *)
Inductive single_change :
  BuilderFactory * FileSystem -> BuilderFactory * FileSystem -> Prop :=
| change_add f f' fs l1 s l2 :
    l1 ++ l2 <> [] ->
    dockerFileInstructions f = l1 ++ l2 ->
    dockerFileInstructions f' = l1 ++ s :: l2 ->
    buildContext f' = buildContext f ->
    single_change (f, fs) (f', fs)
| change_remove f f' fs l1 s l2 :
    l1 ++ l2 <> [] ->
    dockerFileInstructions f = l1 ++ s :: l2 ->
    dockerFileInstructions f' = l1 ++ l2 ->
    buildContext f' = buildContext f ->
    single_change (f, fs) (f', fs)
| change_order f f' fs :
    Permutation (dockerFileInstructions f) (dockerFileInstructions f') ->
    dockerFileInstructions f <> dockerFileInstructions f' ->
    Forall (fun s => has_LF s = false) (dockerFileInstructions f) ->
    buildContext f' = buildContext f ->
    single_change (f, fs) (f', fs)
| change_byte f f' fs fs' n n' :
    dockerFileInstructions f' = dockerFileInstructions f ->
    fs (buildContext f) = inr n ->
    fs' (buildContext f') = inr n' ->
    byte_changed n n' ->
    single_change (f, fs) (f', fs').

(** Reading two hexadecimal digits back. *)
Definition unhex_digit (c : ascii) : Z :=
  let n := Z.of_nat (nat_of_ascii c) in
  if (n <? 58)%Z then (n - 48)%Z else (n - 87)%Z.
Definition unhex_byte (s : string) : byte :=
  match s with
  | String a (String b _) => Sha256.byte_of_Z (16 * unhex_digit a + unhex_digit b)
  | _ => x00
  end.

(** ** Two build contexts and two instruction lists

    The same files at two paths, listed in different orders; and two lists
    that hold the same three instructions, one of which spans two lines. *)
Definition site : node :=
  Dir [("index.html", File [x68; x69]);
       ("css", Dir [("b.css", File [x62]); ("a.css", File [x61])])].
Definition site_listed_otherwise : node :=
  Dir [("css", Dir [("a.css", File [x61]); ("b.css", File [x62])]);
       ("index.html", File [x68; x69])].
Definition site_edited : node :=
  Dir [("index.html", File [x68; x6a]);
       ("css", Dir [("b.css", File [x62]); ("a.css", File [x61])])].

Definition disk (n1 n2 : node) : FileSystem :=
  fun path =>
    if String.eqb path "/ctx" then inr n1
    else if String.eqb path "/tmp/ctx2" then inr n2
    else inl (foreign "no such file or directory").

Definition other_factory : BuilderFactory :=
  {| imageNameFrom := "alpine"; imageNameTo := "";
     dockerFileInstructions := ["FROM alpine"; "RUN echo hi"];
     buildContext := "/tmp/ctx2" |}.

Definition two_lines : string := "RUN a" +:+ LF +:+ "RUN a".
Definition lines_first : BuilderFactory :=
  {| imageNameFrom := "alpine"; imageNameTo := "";
     dockerFileInstructions := ["FROM alpine"; "RUN a"; two_lines];
     buildContext := "/ctx" |}.
Definition lines_swapped : BuilderFactory :=
  {| imageNameFrom := "alpine"; imageNameTo := "";
     dockerFileInstructions := ["FROM alpine"; two_lines; "RUN a"];
     buildContext := "/ctx" |}.

(** ** Vocabulary of further statements *)

(** The line that a recording call appends to the instruction list. *)
Definition line_of (e : Edit) : string :=
  match e with
  | EditExecuteCmd command => "RUN " +:+ Join command " "
  | EditAdd srcPath destPath chown =>
      "ADD --chown=" +:+ chown +:+ " " +:+ srcPath +:+ " " +:+ destPath
  | EditSetEnv name value => "ENV " +:+ name +:+ "=" +:+ value
  | EditSetUser user => "USER " +:+ user
  end.




(** A lowercase hexadecimal digit. *)
Definition is_hex (c : ascii) : bool :=
  let n := nat_of_ascii c in
  (Nat.leb 48 n && Nat.leb n 57) || (Nat.leb 97 n && Nat.leb n 102).

(** A call that only cleans up after [ReadFileFromBuilder]. *)
Definition is_cleanup (c : Call) : bool :=
  match c with
  | ReaderClose _ | ContainerStop _ _ | ContainerRemove _ => true
  | _ => false
  end.

(** ** More worlds and build contexts

    A host whose file system is read-only, a daemon that has no image, a
    daemon whose clean-up calls all fail; and some small build contexts. *)
Definition write_fails : World :=
  {| respond := fun _ c => match c with
                           | OsWriteFile _ _ _ => fail (foreign "read-only file system")
                           | _ => finished
                           end;
     calls := [] |}.

Definition no_image : World :=
  {| respond := fun _ c => match c with
                           | ContainerCreate _ _ => fail (foreign "no such image")
                           | _ => finished
                           end;
     calls := [] |}.

Definition cleanup_fails (items : list TarItem) : World :=
  {| respond := fun h c => if is_cleanup c then fail (foreign "daemon gone")
                           else daemon items h c;
     calls := [] |}.

Definition two_files (n1 n2 : string) (c1 c2 : list byte) : node :=
  Dir [(n1, File c1); (n2, File c2)].
Definition shorter_factory : BuilderFactory :=
  {| imageNameFrom := "alpine"; imageNameTo := "";
     dockerFileInstructions := ["FROM alpine"; "RUN echo"];
     buildContext := "/tmp/ctx2" |}.


End container.

(* ===================================================================== *)
(** * Package [knuu]: tearing an instance down *)
(* ===================================================================== *)

Module knuu.

(** Modelled from the spec: the type [InstanceState], which
    [instance_destroy.go] uses and does not declare. The specification names
    the states [None], [Committed], [Started], [Stopped] and [Destroyed];
    [StateNone] stands for the first. *)
Inductive InstanceState := StateNone | Committed | Started | Stopped | Destroyed.

#[global] Instance InstanceState_eq_dec : EqDecision InstanceState.
Proof. solve_decision. Defined.

(** Modelled from the spec: [InstanceState.String], the name of a state. *)
Definition InstanceState_String (s : InstanceState) : string :=
  match s with
  | StateNone => "None"
  | Committed => "Committed"
  | Started => "Started"
  | Stopped => "Stopped"
  | Destroyed => "Destroyed"
  end.

(** A [*Instance] that is not nil. *)
Definition loc := nat.

(** Modelled from the spec: the fields of [Instance] that [Destroy] reads
    or writes: the name on the cluster, the lifecycle state, and the ordered
    list of owned sidecars (pointers to instances). *)
Record Instance := {
  k8sName : string;
  state : InstanceState;
  sidecars : list loc
}.

Definition set_state (i : Instance) (s : InstanceState) : Instance :=
  {| k8sName := k8sName i; state := s; sidecars := sidecars i |}.

(** The error values that [Destroy] returns. *)
Definition ErrDestroyingNotAllowed := coded "DestroyingNotAllowed" [] None.
Definition ErrDestroyingPod := coded "DestroyingPod" [] None.
Definition ErrDestroyingResourcesForInstance :=
  coded "DestroyingResourcesForInstance" [] None.
Definition ErrDestroyingResourcesForSidecars :=
  coded "DestroyingResourcesForSidecars" [] None.

(** The deletions that [Destroy] asks of the cluster. *)
Inductive RemoteOp :=
| DeletePod (name : string)
| DeleteResources (name : string).

(** The state of a run: the instances behind the pointers, the cluster (the
    deletions asked so far, oldest first, and the error, if any, with which
    it answers the next one after a given history), and the environment
    variables of the process. *)
Record World := {
  instances : gmap loc Instance;
  respond : list RemoteOp -> RemoteOp -> option error;
  history : list RemoteOp;
  getenv : string -> string
}.

Definition set_instances (w : World) (m : gmap loc Instance) : World :=
  {| instances := m; respond := respond w; history := history w;
     getenv := getenv w |}.

Definition set_history (w : World) (h : list RemoteOp) : World :=
  {| instances := instances w; respond := respond w; history := h;
     getenv := getenv w |}.

(** Computations on the world. [None] is the dereference of a pointer that
    points nowhere, which Go's memory safety rules out. *)
Definition M (A : Type) : Type := World -> option (A * World).

Definition ret {A} (a : A) : M A := fun w => Some (a, w).
Definition bind {A B} (m : M A) (k : A -> M B) : M B :=
  fun w => match m w with
           | Some (a, w') => k a w'
           | None => None
           end.

Declare Scope go_scope.
Delimit Scope go_scope with go.
Notation "'let*' x ':=' m 'in' k" := (bind m (fun x => k))
  (at level 10, x name, m at level 100, k at level 200) : go_scope.
Notation "m ';;' k" := (bind m (fun _ => k))
  (at level 100, k at level 200, right associativity) : go_scope.
Open Scope go_scope.

(** Read and write through a pointer. *)
Definition load (i : loc) : M Instance :=
  fun w => match instances w !! i with
           | Some inst => Some (inst, w)
           | None => None
           end.
Definition store_state (i : loc) (s : InstanceState) : M unit :=
  fun w => match instances w !! i with
           | Some _ =>
               Some (tt, set_instances w
                           (alter (fun inst => set_state inst s) i (instances w)))
           | None => None
           end.

(** One deletion on the cluster. *)
Definition remote (op : RemoteOp) : M (option error) :=
  fun w => Some (respond w (history w) op, set_history w (history w ++ [op])).

(** Modelled from the spec: [Instance.destroyPod], step (1) of [Destroy],
    deletes the workload's Pod. *)
Definition destroyPod (i : Instance) : M (option error) :=
  remote (DeletePod (k8sName i)).

(** Modelled from the spec: [Instance.destroyResources], step (2) of
    [Destroy], deletes all other owned remote resources (services, config
    maps, volumes). *)
Definition destroyResources (i : Instance) : M (option error) :=
  remote (DeleteResources (k8sName i)).

(** Modelled from the spec: [Instance.IsInState], whether the state is one
    of the given ones. *)
Definition IsInState (i : Instance) (states : list InstanceState) : bool :=
  bool_decide (state i ∈ states).

(** Modelled from the spec: [applyFunctionToInstances], which applies the
    function to the instances in order and stops at the first error
    (fail-fast, with partial cascade). The function takes an [Instance], not
    a pointer: it gets a copy of what the pointer points to. *)
Fixpoint applyFunctionToInstances (l : list loc)
  (function : Instance -> M (option error)) : M (option error) :=
  match l with
  | [] => ret None
  | p :: rest =>
      let* inst := load p in
      let* err := function inst in
      match err with
      | Some e => ret (Some e)
      | None => applyFunctionToInstances rest function
      end
  end.

(** Modelled from the spec: [setStateForSidecars], which propagates the
    state to all sidecars. *)
Fixpoint setStateForSidecars (l : list loc) (s : InstanceState) : M unit :=
  match l with
  | [] => ret tt
  | p :: rest => store_state p s ;; setStateForSidecars rest s
  end.

(** [Instance.Destroy]. The deadline of the context is real time; a deletion
    that runs into it fails like any other. *)
Definition Destroy (i : loc) : M (option error) :=
  let* inst := load i in
  if bool_decide (state inst = Destroyed) then ret None
  else if negb (IsInState inst [Started; Stopped; Destroyed]) then
    ret (Some (WithParams ErrDestroyingNotAllowed [InstanceState_String (state inst)]))
  else
    let* err := destroyPod inst in
    match err with
    | Some err => ret (Some (Wrap (WithParams ErrDestroyingPod [k8sName inst]) err))
    | None =>
        let* err := destroyResources inst in
        match err with
        | Some err =>
            ret (Some (Wrap (WithParams ErrDestroyingResourcesForInstance
                                        [k8sName inst]) err))
        | None =>
            let* err :=
              applyFunctionToInstances (sidecars inst)
                (fun sidecar => destroyResources sidecar) in
            match err with
            | Some err =>
                ret (Some (Wrap (WithParams ErrDestroyingResourcesForSidecars
                                            [k8sName inst]) err))
            | None =>
                store_state i Destroyed ;;
                setStateForSidecars (sidecars inst) Destroyed ;;
                ret None
            end
        end
    end.

(** The loop of [BatchDestroy] over its arguments; [None] is a nil
    pointer. *)
Fixpoint destroy_each (instances : list (option loc)) : M (option error) :=
  match instances with
  | [] => ret None
  | None :: rest => destroy_each rest
  | Some instance :: rest =>
      let* err := Destroy instance in
      match err with
      | Some err => ret (Some err)
      | None => destroy_each rest
      end
  end.

(** [BatchDestroy]. *)
Definition BatchDestroy (instances : list (option loc)) : M (option error) :=
  fun w =>
    if String.eqb (getenv w "KNUU_SKIP_CLEANUP") "true" then ret None w
    else destroy_each instances w.

(** ** Vocabulary of the statements about [Destroy] *)

(** The pointers of a list all point to an instance. *)
Definition live (m : gmap loc Instance) (l : list loc) : Prop :=
  Forall (fun p => is_Some (m !! p)) l.

(** The cluster names of the instances behind a list of pointers. *)
Definition names_of (m : gmap loc Instance) (l : list loc) : list string :=
  omap (fun p => k8sName <$> m !! p) l.

(** The deletions of one [Destroy] in the order of the source: the Pod, the
    instance's other resources, then the resources of each sidecar. *)
Definition plan (m : gmap loc Instance) (inst : Instance) : list RemoteOp :=
  DeletePod (k8sName inst) :: DeleteResources (k8sName inst)
  :: List.map DeleteResources (names_of m (sidecars inst)).

(** Asking the cluster for the deletions of a list, one after the other,
    until one fails: the history afterwards and the error, if any. *)
Fixpoint attempt (respond : list RemoteOp -> RemoteOp -> option error)
  (h : list RemoteOp) (ops : list RemoteOp) : list RemoteOp * option error :=
  match ops with
  | [] => (h, None)
  | op :: rest =>
      match respond h op with
      | Some e => (h ++ [op], Some e)
      | None => attempt respond (h ++ [op]) rest
      end
  end.

(** The store after the state of every instance of a list was set. *)
Definition set_states (m : gmap loc Instance) (l : list loc) (s : InstanceState)
  : gmap loc Instance :=
  fold_left (fun m p => alter (fun inst => set_state inst s) p m) l m.

(** The state of the instance behind a pointer. *)
Definition state_at (w : World) (p : loc) : option InstanceState :=
  state <$> instances w !! p.

(** The store after a [Destroy] that went through. *)
Definition destroyed (m : gmap loc Instance) (i : loc) (inst : Instance)
  : gmap loc Instance :=
  set_states (alter (fun x => set_state x Destroyed) i m) (sidecars inst) Destroyed.

(** [Destroy] went through on each pointer of a list, one after the other,
    taking the first world to the second. *)
Inductive destroys : list loc -> World -> World -> Prop :=
| destroys_nil w : destroys [] w w
| destroys_cons p l w w1 w2 :
    Destroy p w = Some (None, w1) -> destroys l w1 w2 -> destroys (p :: l) w w2.

(** The arguments of a batch that are not nil. *)
Definition non_nil (args : list (option loc)) : list loc := omap id args.

#[global] Instance RemoteOp_eq_dec : EqDecision RemoteOp.
Proof. solve_decision. Defined.

(** ** A parent with two sidecars

    The instance [web] at pointer 0 owns the sidecars [side-a] and [side-b]
    at pointers 1 and 2; all three are started. The cluster of [cluster bad]
    fails exactly the deletions listed in [bad]. *)
Definition web : Instance :=
  {| k8sName := "web"; state := Started; sidecars := [1; 2] |}.
Definition side_a : Instance :=
  {| k8sName := "side-a"; state := Started; sidecars := [] |}.
Definition side_b : Instance :=
  {| k8sName := "side-b"; state := Started; sidecars := [] |}.
Definition fresh : Instance :=
  {| k8sName := "fresh"; state := StateNone; sidecars := [] |}.

Definition store3 : gmap loc Instance :=
  <[0 := web]> (<[1 := side_a]> (<[2 := side_b]> (<[3 := fresh]> ∅))).

Definition cluster (bad : list RemoteOp) : list RemoteOp -> RemoteOp -> option error :=
  fun _ op => if bool_decide (op ∈ bad) then Some (foreign "deadline exceeded") else None.

Definition no_env : string -> string := fun _ => "".
Definition skip_env : string -> string :=
  fun name => if String.eqb name "KNUU_SKIP_CLEANUP" then "true" else "".

Definition world_ok : World :=
  {| instances := store3; respond := cluster []; history := []; getenv := no_env |}.
Definition world_side_b_fails : World :=
  {| instances := store3; respond := cluster [DeleteResources "side-b"];
     history := []; getenv := no_env |}.
Definition world_gone : World :=
  {| instances := destroyed store3 0 web; respond := cluster [];
     history := [DeletePod "web"; DeleteResources "web";
                 DeleteResources "side-a"; DeleteResources "side-b"];
     getenv := no_env |}.
Definition world_skip : World :=
  {| instances := store3; respond := cluster []; history := []; getenv := skip_env |}.

(** ** Stores that Go can build

    Every pointer kept in a sidecar list points to an instance. *)
Definition closed (m : gmap loc Instance) : Prop :=
  forall p inst, m !! p = Some inst -> live m (sidecars inst).

(** The pointers of a batch that are not nil all point to an instance. *)
Definition live_args (m : gmap loc Instance) (args : list (option loc)) : Prop :=
  live m (non_nil args).

(** The second world is the first after some instances were destroyed: the
    cluster answers as before and its history only grew, the environment is
    the same, and every pointer points to an instance as before, with the
    same name and sidecars, whose state is what it was or [Destroyed]. *)
Definition evolves (w w' : World) : Prop :=
  respond w' = respond w /\ getenv w' = getenv w /\
  history w `prefix_of` history w' /\
  forall p,
    match instances w !! p with
    | None => instances w' !! p = None
    | Some x =>
        exists x',
          instances w' !! p = Some x' /\
          k8sName x' = k8sName x /\ sidecars x' = sidecars x /\
          (state x' = state x \/ state x' = Destroyed)
    end.

End knuu.

(* ===================================================================== *)
(** * Package [kaniko]: the error values *)
(* ===================================================================== *)

Module kaniko.

(** A [*Error] that is not nil. *)
Definition ref := nat.

(** The field [Err]: nil, an error of another type (of which only the text
    that its [Error] method returns matters), or a [*Error]. *)
Inductive cause :=
| no_cause
| outside (text : string)
| inside (e : ref).

(** [Error]. *)
Record Error := {
  Code : string;
  Message : string;
  Err : cause
}.

Definition set_Err (x : Error) (c : cause) : Error :=
  {| Code := Code x; Message := Message x; Err := c |}.

(** What a call of the method [Error] comes to: the string it returns; a
    recursion deeper than the fuel; or the dereference of a pointer that
    points nowhere, which Go's memory safety rules out. *)
Inductive outcome :=
| returned (s : string)
| too_deep
| nowhere.

(** [(e *Error) Error()]. The verb [%v] calls the method [Error] of the
    cause. *)
Fixpoint Error_method (fuel : nat) (m : gmap ref Error) (e : ref) : outcome :=
  match fuel with
  | O => too_deep
  | S fuel' =>
      match m !! e with
      | None => nowhere
      | Some x =>
          match Err x with
          | inside e' =>
              if decide (e' = e) then returned (Message x)
              else
                match Error_method fuel' m e' with
                | returned s => returned (Message x +:+ ": " +:+ s)
                | r => r
                end
          | outside s => returned (Message x +:+ ": " +:+ s)
          | no_cause => returned (Message x)
          end
      end
  end.

(** [(e *Error) Wrap(err)]: writes the field of the value that [e] points
    to, and returns [e]. *)
Definition Wrap (e : ref) (err : cause) (m : gmap ref Error)
  : gmap ref Error * cause :=
  (alter (fun x => set_Err x err) e m, inside e).

(** The error values of the package, in the order of their declaration. *)
Definition sentinel (code message : string) : Error :=
  {| Code := code; Message := message; Err := no_cause |}.

Definition sentinels : list Error :=
  [sentinel "BuildFailed" "build failed";
   sentinel "BuildContextEmpty" "build context cannot be empty";
   sentinel "CleaningUp" "error cleaning up";
   sentinel "CreatingJob" "error creating Job";
   sentinel "DeletingJob" "error deleting Job";
   sentinel "DeletingPods" "error deleting Pods";
   sentinel "GeneratingUUID" "error generating UUID";
   sentinel "GettingContainerLogs" "error getting container logs";
   sentinel "GettingPodFromJob" "error getting Pod from Job";
   sentinel "ListingJobs" "error listing Jobs";
   sentinel "ListingPods" "error listing Pods";
   sentinel "NoContainersFound" "no containers found";
   sentinel "NoPodsFound" "no Pods found";
   sentinel "PreparingJob" "error preparing Job";
   sentinel "WaitingJobCompletion" "error waiting for Job completion";
   sentinel "WatchingChannelCloseUnexpectedly" "watch channel closed unexpectedly";
   sentinel "WatchingJob" "error watching Job";
   sentinel "ContextCancelled" "context cancelled";
   sentinel "MountingDir" "error mounting directory";
   sentinel "MinioNotConfigured" "Minio service is not configured";
   sentinel "MinioDeploymentFailed" "Minio deployment failed";
   sentinel "DeletingMinioContent" "error deleting Minio content";
   sentinel "ParsingQuantity" "error parsing quantity"].

(** The package variables when the program starts. *)
Definition globals : gmap ref Error := map_seq 0 sentinels.

Definition ErrBuildFailed : ref := 0.
Definition ErrCleaningUp : ref := 2.
Definition ErrCreatingJob : ref := 3.
Definition ErrDeletingJob : ref := 4.
Definition ErrDeletingPods : ref := 5.
Definition ErrWatchingJob : ref := 16.

(** A chain of causes: each error of the list is wrapped around the next
    one, which is another error, and the last one has no cause or a cause of
    another type; with the messages along the chain. *)
Inductive linked (m : gmap ref Error) : list ref -> list string -> Prop :=
| linked_end e x :
    m !! e = Some x -> Err x = no_cause -> linked m [e] [Message x]
| linked_out e x s :
    m !! e = Some x -> Err x = outside s -> linked m [e] [Message x; s]
| linked_in e e' x rest msgs :
    m !! e = Some x -> Err x = inside e' -> e' <> e ->
    linked m (e' :: rest) msgs ->
    linked m (e :: e' :: rest) (Message x :: msgs).

End kaniko.

(* ===================================================================== *)
(** * Properties of [Destroy] and [BatchDestroy] *)
(* ===================================================================== *)

Module knuu_facts.
Import knuu.

Lemma set_history_id w : set_history w (history w) = w.
Proof. by destruct w. Qed.

Lemma set_instances_id w : set_instances w (instances w) = w.
Proof. by destruct w. Qed.

(** *** Marking the states *)

Lemma set_states_cons m p l s :
  set_states m (p :: l) s = set_states (alter (fun inst => set_state inst s) p m) l s.
Proof. reflexivity. Qed.

Lemma set_states_lookup m l s p :
  set_states m l s !! p =
  (if bool_decide (p ∈ l) then (fun inst => set_state inst s) <$> m !! p else m !! p).
Proof.
  revert m. induction l as [|q l IH]; intros m.
  - reflexivity.
  - rewrite set_states_cons, IH. destruct (decide (q = p)) as [->|Hne].
    + rewrite lookup_alter_eq.
      rewrite (bool_decide_eq_true_2 (p ∈ p :: l)) by set_solver.
      case_bool_decide; [|done].
      by destruct (m !! p).
    + rewrite lookup_alter_ne by done.
      destruct (decide (p ∈ l)) as [Hin|Hin].
      * assert (p ∈ q :: l) as Hin' by set_solver.
        by rewrite (bool_decide_eq_true_2 _ Hin), (bool_decide_eq_true_2 _ Hin').
      * assert (p ∉ q :: l) as Hin' by set_solver.
        by rewrite (bool_decide_eq_false_2 _ Hin), (bool_decide_eq_false_2 _ Hin').
Qed.

Lemma set_states_live m l s l' : live m l' -> live (set_states m l s) l'.
Proof.
  unfold live. intros H. eapply Forall_impl; [exact H|]. intros p [x Hx].
  rewrite set_states_lookup, Hx. case_bool_decide; eauto.
Qed.

Lemma setStateForSidecars_eq l s w :
  live (instances w) l ->
  setStateForSidecars l s w = Some (tt, set_instances w (set_states (instances w) l s)).
Proof.
  revert w. induction l as [|p l IH]; intros w Hl.
  - cbn. unfold ret. by rewrite set_instances_id.
  - apply Forall_cons in Hl as [[x Hx] Hl].
    cbn. unfold bind, store_state. rewrite Hx.
    rewrite IH.
    + by destruct w.
    + cbn. unfold live in *. eapply Forall_impl; [exact Hl|].
      intros q [y Hy]. cbn. destruct (decide (p = q)) as [->|Hne].
      * rewrite lookup_alter_eq, Hy. eauto.
      * rewrite lookup_alter_ne by done. eauto.
Qed.

(** *** The cascade over the sidecars *)

Lemma names_of_cons m p l x :
  m !! p = Some x -> names_of m (p :: l) = k8sName x :: names_of m l.
Proof. intros H. unfold names_of. cbn. by rewrite H. Qed.

Lemma cascade_eq l w :
  live (instances w) l ->
  applyFunctionToInstances l (fun sidecar => destroyResources sidecar) w =
  let r := attempt (respond w) (history w)
             (List.map DeleteResources (names_of (instances w) l)) in
  Some (r.2, set_history w r.1).
Proof.
  revert w. induction l as [|p l IH]; intros w Hl.
  - cbn. unfold ret. by rewrite set_history_id.
  - apply Forall_cons in Hl as [[x Hx] Hl].
    rewrite (names_of_cons _ _ _ _ Hx). cbn.
    unfold bind at 1. unfold load. rewrite Hx.
    unfold bind at 1. unfold destroyResources, remote.
    destruct (respond w (history w) (DeleteResources (k8sName x))) as [e|] eqn:He.
    + reflexivity.
    + rewrite IH by exact Hl. reflexivity.
Qed.

(** *** [Destroy], call by call *)

Lemma IsInState_allowed inst :
  IsInState inst [Started; Stopped; Destroyed] = true <->
  state inst = Started \/ state inst = Stopped \/ state inst = Destroyed.
Proof.
  unfold IsInState. rewrite bool_decide_eq_true. set_solver.
Qed.

Lemma Destroy_eq w i inst :
  instances w !! i = Some inst ->
  state inst = Started \/ state inst = Stopped ->
  live (instances w) (sidecars inst) ->
  Destroy i w =
  let h := history w in
  let n := k8sName inst in
  match respond w h (DeletePod n) with
  | Some e =>
      Some (Some (Wrap (WithParams ErrDestroyingPod [n]) e),
            set_history w (h ++ [DeletePod n]))
  | None =>
      match respond w (h ++ [DeletePod n]) (DeleteResources n) with
      | Some e =>
          Some (Some (Wrap (WithParams ErrDestroyingResourcesForInstance [n]) e),
                set_history w ((h ++ [DeletePod n]) ++ [DeleteResources n]))
      | None =>
          let r := attempt (respond w)
                     ((h ++ [DeletePod n]) ++ [DeleteResources n])
                     (List.map DeleteResources
                        (names_of (instances w) (sidecars inst))) in
          match r.2 with
          | Some e =>
              Some (Some (Wrap (WithParams ErrDestroyingResourcesForSidecars [n]) e),
                    set_history w r.1)
          | None =>
              Some (None,
                    set_history (set_instances w (destroyed (instances w) i inst)) r.1)
          end
      end
  end.
Proof.
  intros Hi Hst Hlive. cbn zeta.
  unfold Destroy. unfold bind at 1. unfold load at 1. rewrite Hi.
  rewrite bool_decide_eq_false_2 by (destruct Hst as [-> | ->]; discriminate).
  assert (IsInState inst [Started; Stopped; Destroyed] = true) as ->
    by (apply IsInState_allowed; tauto).
  cbn [negb].
  unfold bind at 1. unfold destroyPod, remote.
  destruct (respond w (history w) (DeletePod (k8sName inst))) as [e|]; [reflexivity|].
  unfold bind at 1. unfold destroyResources at 1, remote. cbn [history respond set_history].
  destruct (respond w (history w ++ [DeletePod (k8sName inst)])
              (DeleteResources (k8sName inst))) as [e|]; [reflexivity|].
  unfold bind at 1. rewrite cascade_eq by exact Hlive.
  cbn [history respond set_history instances fst snd].
  destruct (attempt _ _ _) as [h' [e|]]; cbn [fst snd]; [reflexivity|].
  unfold bind at 1. unfold store_state. cbn [instances set_history]. rewrite Hi.
  unfold bind at 1. rewrite setStateForSidecars_eq.
  - reflexivity.
  - cbn. unfold live in *. eapply Forall_impl; [exact Hlive|].
    intros q [y Hy]. cbn. destruct (decide (i = q)) as [->|Hne].
    + rewrite lookup_alter_eq, Hy. eauto.
    + rewrite lookup_alter_ne by done. eauto.
Qed.

(** *** Asking for deletions in order *)

Lemma snoc_app {A} (h : list A) (x : A) (l : list A) :
  (h ++ [x]) ++ l = h ++ x :: l.
Proof. by rewrite <- app_assoc. Qed.

Lemma attempt_prefix resp h ops :
  exists k,
    k <= List.length ops /\
    (attempt resp h ops).1 = h ++ take k ops /\
    (forall j op, j + 1 < k -> ops !! j = Some op ->
                  resp (h ++ take j ops) op = None) /\
    match (attempt resp h ops).2 with
    | None =>
        k = List.length ops /\
        (forall j op, j < k -> ops !! j = Some op ->
                      resp (h ++ take j ops) op = None)
    | Some e =>
        exists op, 0 < k /\ ops !! (k - 1) = Some op /\
                   resp (h ++ take (k - 1) ops) op = Some e
    end.
Proof.
  revert h. induction ops as [|op ops IH]; intros h.
  - exists 0. cbn. rewrite app_nil_r.
    split; [lia|]. split; [done|]. split; [intros; lia|]. split; [done|intros; lia].
  - cbn [attempt]. destruct (resp h op) as [e|] eqn:He.
    + exists 1. cbn. split; [lia|]. split; [done|]. split; [intros; lia|].
      exists op. rewrite app_nil_r. split; [lia|]. by split.
    + destruct (IH (h ++ [op])) as (k & Hk & Hh & Hpre & Hres).
      exists (S k). cbn [List.length firstn]. split; [lia|]. split.
      { rewrite Hh. by rewrite snoc_app. }
      split.
      { intros [|j] op' Hj Hop'.
        - cbn in Hop'. injection Hop' as <-. cbn. by rewrite app_nil_r.
        - cbn in Hop'. cbn [firstn]. rewrite <- snoc_app.
          apply Hpre; [lia|done]. }
      destruct ((attempt resp (h ++ [op]) ops).2) as [e|].
      * destruct Hres as (op' & Hpos & Hop' & Hfail).
        exists op'. split; [lia|].
        replace (S k - 1) with (S (k - 1)) by lia. cbn [firstn].
        split; [done|]. by rewrite <- snoc_app.
      * destruct Hres as [-> Hall]. split; [done|].
        intros [|j] op' Hj Hop'.
        -- cbn in Hop'. injection Hop' as <-. cbn. by rewrite app_nil_r.
        -- cbn in Hop'. cbn [firstn]. rewrite <- snoc_app.
           apply Hall; [lia|done].
Qed.

Lemma Destroy_attempt w i inst :
  instances w !! i = Some inst ->
  state inst = Started \/ state inst = Stopped ->
  live (instances w) (sidecars inst) ->
  let r := attempt (respond w) (history w) (plan (instances w) inst) in
  match r.2 with
  | Some _ => exists err, Destroy i w = Some (Some err, set_history w r.1)
  | None =>
      Destroy i w =
      Some (None, set_history (set_instances w (destroyed (instances w) i inst)) r.1)
  end.
Proof.
  intros Hi Hst Hlive. rewrite (Destroy_eq w i inst Hi Hst Hlive).
  unfold plan. cbn [attempt]. cbn zeta.
  destruct (respond w (history w) (DeletePod (k8sName inst))) as [e|]; [cbn; eauto|].
  destruct (respond w (history w ++ [DeletePod (k8sName inst)])
              (DeleteResources (k8sName inst))) as [e|]; [cbn; eauto|].
  destruct (attempt _ _ _) as [h' [e|]]; cbn; eauto.
Qed.

Lemma destroyed_state_self m i inst :
  m !! i = Some inst -> state <$> destroyed m i inst !! i = Some Destroyed.
Proof.
  intros Hi. unfold destroyed. rewrite set_states_lookup, lookup_alter_eq, Hi.
  by case_bool_decide.
Qed.

Lemma destroyed_state_sidecar m i inst s :
  s ∈ sidecars inst -> is_Some (m !! s) ->
  state <$> destroyed m i inst !! s = Some Destroyed.
Proof.
  intros Hs [x Hx]. unfold destroyed. rewrite set_states_lookup.
  rewrite bool_decide_eq_true_2 by done.
  destruct (decide (i = s)) as [->|Hne].
  - by rewrite lookup_alter_eq, Hx.
  - by rewrite lookup_alter_ne, Hx by done.
Qed.

Lemma destroyed_state_other m i inst p :
  p <> i -> p ∉ sidecars inst -> destroyed m i inst !! p = m !! p.
Proof.
  intros Hne Hp. unfold destroyed. rewrite set_states_lookup.
  rewrite bool_decide_eq_false_2 by done. by rewrite lookup_alter_ne.
Qed.

Lemma cascade_inv l w w' :
  applyFunctionToInstances l (fun sidecar => destroyResources sidecar) w
  = Some (None, w') ->
  live (instances w) l.
Proof.
  revert w. induction l as [|p l IH]; intros w H.
  - constructor.
  - cbn in H. unfold bind at 1 in H. unfold load in H.
    destruct (instances w !! p) as [x|] eqn:Hx; [|discriminate].
    unfold bind at 1 in H. unfold destroyResources at 1, remote in H.
    destruct (respond w (history w) (DeleteResources (k8sName x))); [discriminate|].
    apply IH in H. constructor; [eauto|exact H].
Qed.

(** A [Destroy] that returns nil leaves the instance in state [Destroyed]. *)
Lemma Destroy_nil_Destroyed w i w' :
  Destroy i w = Some (None, w') -> state_at w' i = Some Destroyed.
Proof.
  intros H. unfold state_at.
  assert (exists inst, instances w !! i = Some inst) as [inst Hi].
  { unfold Destroy, bind, load in H. destruct (instances w !! i); [eauto|discriminate]. }
  destruct (decide (state inst = Destroyed)) as [Hd|Hd].
  { unfold Destroy in H. unfold bind at 1 in H. unfold load in H. rewrite Hi in H.
    rewrite bool_decide_eq_true_2 in H by done. injection H as <-.
    by rewrite Hi; cbn; rewrite Hd. }
  destruct (IsInState inst [Started; Stopped; Destroyed]) eqn:Hin.
  2:{ unfold Destroy in H. unfold bind at 1 in H. unfold load in H. rewrite Hi in H.
      rewrite bool_decide_eq_false_2, Hin in H by done. discriminate. }
  apply IsInState_allowed in Hin.
  assert (state inst = Started \/ state inst = Stopped) as Hst by tauto.
  assert (live (instances w) (sidecars inst)) as Hlive.
  { unfold Destroy in H. unfold bind at 1 in H. unfold load in H. rewrite Hi in H.
    rewrite bool_decide_eq_false_2 in H by done.
    assert (IsInState inst [Started; Stopped; Destroyed] = true) as Hin'
      by (apply IsInState_allowed; tauto).
    rewrite Hin' in H. cbn [negb] in H.
    unfold bind at 1 in H. unfold destroyPod, remote in H.
    destruct (respond w (history w) (DeletePod (k8sName inst))); [discriminate|].
    unfold bind at 1 in H. unfold destroyResources at 1, remote in H.
    cbn [history respond set_history] in H.
    destruct (respond w _ (DeleteResources (k8sName inst))); [discriminate|].
    unfold bind at 1 in H.
    destruct (applyFunctionToInstances _ _ _) as [[[e|] w1]|] eqn:Hc;
      [discriminate| |discriminate].
    apply cascade_inv in Hc. exact Hc. }
  pose proof (Destroy_attempt w i inst Hi Hst Hlive) as HD. cbn zeta in HD.
  destruct ((attempt _ _ _).2).
  - destruct HD as [err HD]. congruence.
  - rewrite HD in H. injection H as <-. cbn. by apply destroyed_state_self.
Qed.

(** ** The claims *)

(** C5. [Destroy] is idempotent: on an instance whose state is [Destroyed]
    it returns nil and leaves the world as it is (the instances and their
    states, and the history of the cluster: no deletion of a Pod, of
    resources or of a sidecar is asked for); hence after a [Destroy] that
    returned nil, a second [Destroy] returns nil and changes nothing. *)
Theorem Destroy_idempotent (w : World) (i : loc) :
  (forall inst, instances w !! i = Some inst -> state inst = Destroyed ->
                Destroy i w = Some (None, w)) /\
  (forall w', Destroy i w = Some (None, w') -> Destroy i w' = Some (None, w')).
Proof.
  assert (forall w0 inst, instances w0 !! i = Some inst -> state inst = Destroyed ->
                          Destroy i w0 = Some (None, w0)) as Hfirst.
  { intros w0 inst Hi Hd. unfold Destroy, bind, load. rewrite Hi.
    by rewrite bool_decide_eq_true_2. }
  split; [apply Hfirst|].
  intros w' H. apply Destroy_nil_Destroyed in H. unfold state_at in H.
  destruct (instances w' !! i) as [inst'|] eqn:Hi'; [|discriminate].
  cbn in H. injection H as H. by apply (Hfirst w' inst').
Qed.

(** C6. On an instance whose state is not [Started], [Stopped] or
    [Destroyed], [Destroy] returns the error [ErrDestroyingNotAllowed] with
    the name of that state as its parameter (and no other state has that
    name), and leaves the world as it is: the state is unchanged and no
    deletion is asked of the cluster. *)
Theorem Destroy_not_allowed (w : World) (i : loc) (inst : Instance) :
  instances w !! i = Some inst ->
  state inst <> Started -> state inst <> Stopped -> state inst <> Destroyed ->
  Destroy i w =
    Some (Some (coded "DestroyingNotAllowed" [InstanceState_String (state inst)] None), w)
  /\ (forall s, InstanceState_String s = InstanceState_String (state inst) ->
                s = state inst).
Proof.
  intros Hi H1 H2 H3. split.
  - unfold Destroy, bind, load. rewrite Hi.
    rewrite bool_decide_eq_false_2 by done.
    destruct (IsInState inst [Started; Stopped; Destroyed]) eqn:Hin.
    + apply IsInState_allowed in Hin. tauto.
    + reflexivity.
  - intros s. by destruct s, (state inst).
Qed.

(** C3. Within one [Destroy] on an instance that is [Started] or [Stopped],
    the deletions asked of the cluster are the first [k] of: the Pod, the
    instance's other resources, the resources of each sidecar in order.
    Every deletion before the last one asked went through. Either the call
    returns nil, all of them were asked and went through, and the state is
    [Destroyed]; or it returns an error, the last deletion asked is one that
    failed, nothing after it was asked, and no state was flipped. *)
Theorem Destroy_steps_in_order (w : World) (i : loc) (inst : Instance) :
  instances w !! i = Some inst ->
  state inst = Started \/ state inst = Stopped ->
  live (instances w) (sidecars inst) ->
  let steps := plan (instances w) inst in
  exists res w' k,
    Destroy i w = Some (res, w') /\
    k <= List.length steps /\
    history w' = history w ++ take k steps /\
    (forall j op, j + 1 < k -> steps !! j = Some op ->
                  respond w (history w ++ take j steps) op = None) /\
    match res with
    | None =>
        k = List.length steps /\
        (forall j op, j < k -> steps !! j = Some op ->
                      respond w (history w ++ take j steps) op = None) /\
        state_at w' i = Some Destroyed
    | Some _ =>
        (exists op e, 0 < k /\ steps !! (k - 1) = Some op /\
                      respond w (history w ++ take (k - 1) steps) op = Some e) /\
        instances w' = instances w
    end.
Proof.
  intros Hi Hst Hlive steps.
  pose proof (Destroy_attempt w i inst Hi Hst Hlive) as HD. cbn zeta in HD.
  destruct (attempt_prefix (respond w) (history w) steps)
    as (k & Hk & Hh & Hpre & Hres).
  fold steps in HD.
  destruct ((attempt (respond w) (history w) steps).2) as [e|].
  - destruct HD as [err HD].
    exists (Some err), (set_history w (attempt (respond w) (history w) steps).1), k.
    split; [exact HD|]. split; [exact Hk|]. split; [exact Hh|]. split; [exact Hpre|].
    split; [|reflexivity].
    destruct Hres as (op & Hpos & Hop & Hfail). by exists op, e.
  - exists None,
      (set_history (set_instances w (destroyed (instances w) i inst))
                   (attempt (respond w) (history w) steps).1), k.
    split; [exact HD|]. split; [exact Hk|]. split; [exact Hh|]. split; [exact Hpre|].
    destruct Hres as [Hlen Hall]. split; [exact Hlen|]. split; [exact Hall|].
    unfold state_at. cbn. by apply destroyed_state_self.
Qed.

(** C2, as the code has it. On a parent that is [Started] or [Stopped], a
    [Destroy] that returns nil leaves the parent and every sidecar in state
    [Destroyed]. A [Destroy] that returns an error leaves the state of the
    parent and of every sidecar as it was; and when the Pod and the parent's
    resources are deleted and the deletion of some sidecar's resources
    fails, [Destroy] does return an error, [ErrDestroyingResourcesForSidecars]
    around the cause. *)
Theorem Destroy_cascade (w : World) (i : loc) (inst : Instance) :
  instances w !! i = Some inst ->
  state inst = Started \/ state inst = Stopped ->
  live (instances w) (sidecars inst) ->
  exists res w',
    Destroy i w = Some (res, w') /\
    match res with
    | None =>
        state_at w' i = Some Destroyed /\
        (forall s, s ∈ sidecars inst -> state_at w' s = Some Destroyed)
    | Some _ => instances w' = instances w
    end /\
    (forall e,
        let h := history w ++ [DeletePod (k8sName inst)] in
        respond w (history w) (DeletePod (k8sName inst)) = None ->
        respond w h (DeleteResources (k8sName inst)) = None ->
        (attempt (respond w) (h ++ [DeleteResources (k8sName inst)])
           (List.map DeleteResources (names_of (instances w) (sidecars inst)))).2
        = Some e ->
        res = Some (coded "DestroyingResourcesForSidecars" [k8sName inst] (Some e))).
Proof.
  intros Hi Hst Hlive.
  rewrite (Destroy_eq w i inst Hi Hst Hlive). cbn zeta.
  destruct (respond w (history w) (DeletePod (k8sName inst))) as [e1|].
  { eexists _, _. split; [reflexivity|]. split; [reflexivity|]. intros; discriminate. }
  destruct (respond w (history w ++ [DeletePod (k8sName inst)])
              (DeleteResources (k8sName inst))) as [e2|].
  { eexists _, _. split; [reflexivity|]. split; [reflexivity|]. intros; discriminate. }
  destruct (attempt _ _ _) as [h' [e3|]]; cbn [fst snd].
  - eexists _, _. split; [reflexivity|]. split; [reflexivity|].
    intros e _ _ [= <-]. reflexivity.
  - eexists _, _. split; [reflexivity|]. split; [|intros; discriminate].
    unfold state_at. cbn. split.
    + by apply destroyed_state_self.
    + intros s Hs. apply destroyed_state_sidecar; [done|].
      unfold live in Hlive. rewrite Forall_forall in Hlive. by apply Hlive.
Qed.

(** *** The batch *)

Lemma non_nil_Some p args : non_nil (Some p :: args) = p :: non_nil args.
Proof. reflexivity. Qed.

Lemma non_nil_None args : non_nil (None :: args) = non_nil args.
Proof. reflexivity. Qed.

Lemma destroys_cons_inv p l w w' :
  destroys (p :: l) w w' ->
  exists w1, Destroy p w = Some (None, w1) /\ destroys l w1 w'.
Proof. intros H. inversion H; subst. eauto. Qed.

Lemma destroy_each_nil args w w' :
  destroy_each args w = Some (None, w') <-> destroys (non_nil args) w w'.
Proof.
  revert w. induction args as [|[p|] args IH]; intros w.
  - cbn. unfold ret. split.
    + intros [= <-]. constructor.
    + intros H. by inversion H.
  - cbn [destroy_each]. rewrite non_nil_Some.
    unfold bind. destruct (Destroy p w) as [[[e|] w1]|] eqn:HD.
    + split; [discriminate|].
      intros (w2 & HD2 & _)%destroys_cons_inv. congruence.
    + rewrite IH. split.
      * intros H. by econstructor.
      * intros (w2 & HD2 & H)%destroys_cons_inv.
        assert (w1 = w2) as -> by congruence. done.
    + split; [discriminate|].
      intros (w2 & HD2 & _)%destroys_cons_inv. congruence.
  - cbn [destroy_each]. rewrite non_nil_None. apply IH.
Qed.

Lemma destroy_each_err args w err w' :
  destroy_each args w = Some (Some err, w') <->
  exists pre p post w1,
    args = pre ++ Some p :: post /\
    destroys (non_nil pre) w w1 /\
    Destroy p w1 = Some (Some err, w').
Proof.
  revert w. induction args as [|[p|] args IH]; intros w.
  - cbn. unfold ret. split; [discriminate|].
    intros (pre & p & post & w1 & Hargs & _). by destruct pre.
  - cbn [destroy_each]. unfold bind.
    destruct (Destroy p w) as [[[e|] w1]|] eqn:HD.
    + split.
      * intros [= <- <-]. exists [], p, args, w.
        split; [done|]. split; [constructor|done].
      * intros (pre & q & post & w2 & Hargs & Hpre & Hq).
        destruct pre as [|a pre]; cbn in Hargs;
          [injection Hargs as -> -> | injection Hargs as <- ->].
        -- inversion Hpre; subst. unfold ret. congruence.
        -- rewrite non_nil_Some in Hpre.
           apply destroys_cons_inv in Hpre as (w3 & HD3 & _). congruence.
    + rewrite IH. split.
      * intros (pre & q & post & w2 & -> & Hpre & Hq).
        exists (Some p :: pre), q, post, w2. split; [done|]. split; [|done].
        rewrite non_nil_Some. by econstructor.
      * intros (pre & q & post & w2 & Hargs & Hpre & Hq).
        destruct pre as [|a pre]; cbn in Hargs;
          [injection Hargs as -> -> | injection Hargs as <- ->].
        -- inversion Hpre; subst. congruence.
        -- rewrite non_nil_Some in Hpre.
           apply destroys_cons_inv in Hpre as (w3 & HD3 & Hpre).
           assert (w1 = w3) as -> by congruence.
           by exists pre, q, post, w2.
    + split; [discriminate|].
      intros (pre & q & post & w2 & Hargs & Hpre & Hq).
      destruct pre as [|a pre]; cbn in Hargs;
          [injection Hargs as -> -> | injection Hargs as <- ->].
      * inversion Hpre; subst. congruence.
      * rewrite non_nil_Some in Hpre.
        apply destroys_cons_inv in Hpre as (w3 & HD3 & _). congruence.
  - cbn [destroy_each]. rewrite IH. split.
    + intros (pre & q & post & w2 & -> & Hpre & Hq).
      by exists (None :: pre), q, post, w2.
    + intros (pre & q & post & w2 & Hargs & Hpre & Hq).
      destruct pre as [|a pre]; cbn in Hargs; [discriminate|].
      injection Hargs as <- ->.
      by exists pre, q, post, w2.
Qed.

(** C7, as the code has it. When the environment variable
    [KNUU_SKIP_CLEANUP] is ["true"], [BatchDestroy] returns nil and leaves
    the world as it is. Otherwise it returns nil exactly when [Destroy] went
    through on each argument that is not nil, in the order of the arguments;
    and it returns an error exactly when the arguments split into a part on
    which every [Destroy] went through, an argument whose [Destroy] returned
    that error, and the arguments after it, which play no part: the world is
    the one the failed [Destroy] left. *)
Theorem BatchDestroy_fail_fast (w : World) (args : list (option loc)) :
  (getenv w "KNUU_SKIP_CLEANUP" = "true" -> BatchDestroy args w = Some (None, w)) /\
  (getenv w "KNUU_SKIP_CLEANUP" <> "true" ->
   (forall w', BatchDestroy args w = Some (None, w') <->
               destroys (non_nil args) w w') /\
   (forall err w',
       BatchDestroy args w = Some (Some err, w') <->
       exists pre p post w1,
         args = pre ++ Some p :: post /\
         destroys (non_nil pre) w w1 /\
         Destroy p w1 = Some (Some err, w'))).
Proof.
  unfold BatchDestroy. split.
  - intros ->. reflexivity.
  - intros Hne. apply String.eqb_neq in Hne. rewrite Hne. split.
    + intros w'. apply destroy_each_nil.
    + intros err w'. apply destroy_each_err.
Qed.

(** ** The claims on the parent with two sidecars *)

Lemma store3_live : live store3 [1; 2].
Proof. repeat constructor; eexists; reflexivity. Qed.

(** The first [Destroy] of [web] deletes four things; the second one finds
    the state [Destroyed] and is a no-op. *)
Lemma Destroy_idempotent_witness :
  Destroy 0 world_ok = Some (None, world_gone) /\
  Destroy 0 world_gone = Some (None, world_gone) /\
  (instances world_gone !! 0 = Some (set_state web Destroyed) ->
   Destroy 0 world_gone = Some (None, world_gone)).
Proof.
  assert (Destroy 0 world_ok = Some (None, world_gone)) as H1
    by (vm_compute; reflexivity).
  destruct (Destroy_idempotent world_ok 0) as [_ Htwice].
  destruct (Destroy_idempotent world_gone 0) as [Hnoop _].
  split; [exact H1|]. split.
  - apply Htwice. exact H1.
  - intros Hi. apply (Hnoop (set_state web Destroyed)); [exact Hi|reflexivity].
Defined.

(** [fresh] was never committed: its [Destroy] is refused. *)
Lemma Destroy_not_allowed_witness :
  instances world_ok !! 3 = Some fresh /\
  Destroy 3 world_ok = Some (Some (coded "DestroyingNotAllowed" ["None"] None), world_ok).
Proof.
  split; [reflexivity|].
  apply (Destroy_not_allowed world_ok 3 fresh); [reflexivity|discriminate..].
Defined.

(** The deletion of the second sidecar's resources fails: four deletions
    were asked, in order, and nothing was flipped. *)
Lemma Destroy_steps_in_order_witness :
  exists res w' k,
    Destroy 0 world_side_b_fails = Some (res, w') /\
    history w' = take k [DeletePod "web"; DeleteResources "web";
                         DeleteResources "side-a"; DeleteResources "side-b"] /\
    match res with
    | None => state_at w' 0 = Some Destroyed
    | Some _ => instances w' = store3
    end.
Proof.
  destruct (Destroy_steps_in_order world_side_b_fails 0 web)
    as (res & w' & k & HD & _ & Hh & _ & Hres).
  - reflexivity.
  - left; reflexivity.
  - exact store3_live.
  - exists res, w', k. split; [exact HD|]. split; [exact Hh|].
    destruct res; [apply Hres|apply Hres].
Defined.

Lemma Destroy_cascade_witness :
  exists w',
    Destroy 0 world_ok = Some (None, w') /\
    state_at w' 0 = Some Destroyed /\
    state_at w' 1 = Some Destroyed /\
    state_at w' 2 = Some Destroyed.
Proof.
  destruct (Destroy_cascade world_ok 0 web) as (res & w' & HD & Hres & _).
  - reflexivity.
  - left; reflexivity.
  - exact store3_live.
  - destruct res as [e|]; [vm_compute in HD; discriminate|].
    exists w'. split; [exact HD|]. destruct Hres as [H0 Hs].
    split; [exact H0|]. split; apply Hs; cbn; set_solver.
Defined.

(** C2, as stated, fails: when the deletion of the second sidecar's
    resources fails, the first sidecar's resources were deleted in this very
    call, and yet its state is [Started], not [Destroyed]. *)
Lemma Destroy_partial_cascade_counterexample :
  ~ (forall (w w' : World) (i s : loc) (inst sc : Instance) (err : error)
            (h : list RemoteOp),
        instances w !! i = Some inst ->
        s ∈ sidecars inst ->
        instances w !! s = Some sc ->
        Destroy i w = Some (Some err, w') ->
        (history w ++ h ++ [DeleteResources (k8sName sc)]) `prefix_of` history w' ->
        respond w (history w ++ h) (DeleteResources (k8sName sc)) = None ->
        state_at w' s = Some Destroyed).
Proof.
  intros H.
  specialize (H world_side_b_fails
                (set_history world_side_b_fails
                   [DeletePod "web"; DeleteResources "web";
                    DeleteResources "side-a"; DeleteResources "side-b"])
                0 1 web side_a
                (coded "DestroyingResourcesForSidecars" ["web"]
                       (Some (foreign "deadline exceeded")))
                [DeletePod "web"; DeleteResources "web"]).
  assert (state_at
            (set_history world_side_b_fails
               [DeletePod "web"; DeleteResources "web";
                DeleteResources "side-a"; DeleteResources "side-b"]) 1
          = Some Started) as Hst by reflexivity.
  rewrite Hst in H.
  enough (Some Started = Some Destroyed) by discriminate.
  apply H.
  - reflexivity.
  - cbn. set_solver.
  - reflexivity.
  - reflexivity.
  - exists [DeleteResources "side-b"]. reflexivity.
  - reflexivity.
Qed.

(** The batch of the specification's example: the first [Destroy] goes
    through, the nil entry is skipped, the [Destroy] of [fresh] is refused,
    and the last argument is never touched. *)
Lemma BatchDestroy_fail_fast_witness :
  exists w',
    BatchDestroy [Some 1; None; Some 3; Some 2] world_ok
    = Some (Some (coded "DestroyingNotAllowed" ["None"] None), w') /\
    history w' = [DeletePod "side-a"; DeleteResources "side-a"] /\
    state_at w' 1 = Some Destroyed /\
    state_at w' 2 = Some Started.
Proof.
  destruct (BatchDestroy_fail_fast world_ok [Some 1; None; Some 3; Some 2])
    as [_ H].
  destruct H as [_ Herr]; [discriminate|].
  destruct (Destroy 1 world_ok) as [[[e|] w1]|] eqn:H1;
    try (vm_compute in H1; discriminate).
  exists w1. split.
  - apply Herr. exists [Some 1; None], 3, [Some 2], w1.
    split; [reflexivity|]. split.
    + rewrite non_nil_Some, non_nil_None. econstructor; [exact H1|constructor].
    + vm_compute in H1. injection H1 as <-. reflexivity.
  - vm_compute in H1. injection H1 as <-. repeat split; reflexivity.
Defined.

(** C7, as stated, fails when [KNUU_SKIP_CLEANUP] is ["true"]:
    [BatchDestroy] returns nil without applying [Destroy] to its
    argument. *)
Lemma BatchDestroy_skip_counterexample :
  ~ (forall (w w' : World) (args : list (option loc)),
        BatchDestroy args w = Some (None, w') -> destroys (non_nil args) w w').
Proof.
  intros H. specialize (H world_skip world_skip [Some 0]).
  assert (destroys [0] world_skip world_skip) as Hd by (apply H; reflexivity).
  apply destroys_cons_inv in Hd as (w1 & H1 & Hrest).
  inversion Hrest; subst.
  vm_compute in H1. discriminate.
Qed.

End knuu_facts.

(* ===================================================================== *)
(** * Properties of the builder factory *)
(* ===================================================================== *)

Module container_facts.
Import container.

(** ** The digest on the test vectors of the standard *)

Example Sum256_empty :
  Sprintf_x (Sha256.Sum256 [])
  = "e3b0c44298fc1c149afbf4c8996fb92427ae41e4649b934ca495991b7852b855".
Proof. vm_compute. reflexivity. Qed.

Example Sum256_abc :
  Sprintf_x (Sha256.Sum256 (list_byte_of_string "abc"))
  = "ba7816bf8f01cfea414140de5dae2223b00361a396177a9cb410ff61f20015ad".
Proof. vm_compute. reflexivity. Qed.

Example Sum256_two_blocks :
  Sprintf_x (Sha256.Sum256 (list_byte_of_string
     "abcdbcdecdefdefgefghfghighijhijkijkljklmklmnlmnomnopnopq"))
  = "248d6a61d20638b8e5c026930c3e6039a33ce45964ff2167f6ecedd419db06c1".
Proof. vm_compute. reflexivity. Qed.

(** ** The instruction list *)

Lemma edited_app f es1 es2 : edited f (es1 ++ es2) = edited (edited f es1) es2.
Proof. unfold edited. apply fold_left_app. Qed.

Lemma apply_edit_fields f e :
  imageNameFrom (apply_edit f e) = imageNameFrom f /\
  imageNameTo (apply_edit f e) = imageNameTo f /\
  buildContext (apply_edit f e) = buildContext f /\
  exists line, dockerFileInstructions (apply_edit f e)
               = dockerFileInstructions f ++ [line].
Proof. destruct e; cbn; eauto. Qed.

Lemma edited_fields f es :
  imageNameFrom (edited f es) = imageNameFrom f /\
  imageNameTo (edited f es) = imageNameTo f /\
  buildContext (edited f es) = buildContext f /\
  exists lines, List.length lines = List.length es /\
                dockerFileInstructions (edited f es)
                = dockerFileInstructions f ++ lines.
Proof.
  revert f. induction es as [|e es IH]; intros f.
  - cbn. repeat split. exists []. by rewrite app_nil_r.
  - cbn. destruct (IH (apply_edit f e)) as (H1 & H2 & H3 & lines & Hlen & Hl).
    destruct (apply_edit_fields f e) as (E1 & E2 & E3 & line & El).
    unfold edited in *. rewrite H1, H2, H3, E1, E2, E3. repeat split.
    exists (line :: lines). split; [cbn; lia|].
    rewrite Hl, El. by rewrite <- app_assoc.
Qed.

Lemma NewBuilderFactory_fields imageName ctx w f w' :
  NewBuilderFactory imageName ctx w = (inr f, w') ->
  f = {| imageNameFrom := imageName; imageNameTo := "";
         dockerFileInstructions := ["FROM " +:+ imageName];
         buildContext := ctx |}.
Proof.
  unfold NewBuilderFactory, call. cbn.
  destruct (reply_err _); [discriminate|].
  destruct (reply_err _); [discriminate|].
  by intros [= <- _].
Qed.

(** C8. [Changed] is true exactly when the instruction list has more than
    one element; on a factory that a caller built with [NewBuilderFactory]
    and the recording calls, the list is the [FROM] line of the base image
    followed by one line per call, so [Changed] is true exactly when there
    is more than the [FROM] line. When [Changed] is false, [PushBuilderImage]
    returns nil at once: the factory is as it was and no call left the
    package (no manifest written, no build, nothing pushed). *)
Theorem Changed_and_skip (f : BuilderFactory) :
  (Changed f = true <-> 1 < List.length (dockerFileInstructions f)) /\
  (forall imageName ctx w w' f0 es,
      NewBuilderFactory imageName ctx w = (inr f0, w') ->
      f = edited f0 es ->
      exists lines,
        dockerFileInstructions f = ("FROM " +:+ imageName) :: lines /\
        List.length lines = List.length es /\
        (Changed f = true <-> lines <> [])) /\
  (Changed f = false ->
   forall imageName w, PushBuilderImage f imageName w = (f, None, w)).
Proof.
  split; [|split].
  - unfold Changed. apply Nat.ltb_lt.
  - intros imageName ctx w w' f0 es Hnew ->.
    apply NewBuilderFactory_fields in Hnew. subst f0.
    destruct (edited_fields
                {| imageNameFrom := imageName; imageNameTo := "";
                   dockerFileInstructions := ["FROM " +:+ imageName];
                   buildContext := ctx |} es) as (_ & _ & _ & lines & Hlen & Hl).
    cbn in Hl. exists lines. split; [exact Hl|]. split; [exact Hlen|].
    unfold Changed. rewrite Hl. by destruct lines.
  - intros Hc imageName w. unfold PushBuilderImage. by rewrite Hc.
Qed.

Lemma Changed_and_skip_witness :
  Changed base_factory = false /\
  PushBuilderImage base_factory "ttl.sh/app:1h" (host []) = (base_factory, None, host []) /\
  Changed (edited base_factory [EditSetUser "root"]) = true.
Proof.
  destruct (Changed_and_skip base_factory) as (_ & _ & Hskip).
  destruct (Changed_and_skip (edited base_factory [EditSetUser "root"]))
    as (Hlen & _ & _).
  split; [reflexivity|]. split.
  - apply Hskip. reflexivity.
  - apply Hlen. cbn. lia.
Defined.

(** ** [ReadFileFromBuilder] *)

(** C10. On a factory whose destination image name is empty (none was
    recorded), [ReadFileFromBuilder] returns [ErrNoImageNameProvided] and no
    call leaves the package: no container is created, started, stopped or
    removed, and no archive is read. The factories that a caller built with
    [NewBuilderFactory] and the recording calls are such factories, and so
    are they after a [PushBuilderImage] that found nothing changed. *)
Theorem ReadFileFromBuilder_no_image (f : BuilderFactory) (filePath : string)
  (w : World) :
  (imageNameTo f = "" ->
   ReadFileFromBuilder f filePath w = (inl ErrNoImageNameProvided, w)) /\
  (forall imageName ctx w0 w1 f0 es,
      NewBuilderFactory imageName ctx w0 = (inr f0, w1) ->
      f = edited f0 es -> imageNameTo f = "") /\
  (forall imageName w0, Changed f = false -> imageNameTo f = "" ->
      imageNameTo (PushBuilderImage f imageName w0).1.1 = "").
Proof.
  split; [|split].
  - intros H. unfold ReadFileFromBuilder. by rewrite H.
  - intros imageName ctx w0 w1 f0 es Hnew ->.
    apply NewBuilderFactory_fields in Hnew. subst f0.
    by destruct (edited_fields
                {| imageNameFrom := imageName; imageNameTo := "";
                   dockerFileInstructions := ["FROM " +:+ imageName];
                   buildContext := ctx |} es) as (_ & -> & _).
  - intros imageName w0 Hc H. unfold PushBuilderImage. by rewrite Hc.
Qed.

Lemma ReadFileFromBuilder_no_image_witness :
  imageNameTo (edited base_factory [EditSetUser "root"]) = "" /\
  ReadFileFromBuilder (edited base_factory [EditSetUser "root"]) "/etc/hosts"
                      (host data_archive)
  = (inl ErrNoImageNameProvided, host data_archive).
Proof.
  split; [reflexivity|].
  destruct (ReadFileFromBuilder_no_image
              (edited base_factory [EditSetUser "root"]) "/etc/hosts"
              (host data_archive)) as [H _].
  apply H. reflexivity.
Defined.

(** *** The loop over the archive *)

Lemma read_tar_None items :
  read_tar items = None <-> Forall (fun it => skipped it = true) items.
Proof.
  induction items as [|[t name body|err] items IH]; cbn.
  - split; [constructor|done].
  - destruct (Ascii.eqb t TypeReg) eqn:Ht.
    + split.
      * by destruct body.
      * intros H. apply Forall_cons in H as [H _]. cbn in H. by rewrite Ht in H.
    + rewrite IH. split.
      * intros H. constructor; [cbn; by rewrite Ht|exact H].
      * intros H. by apply Forall_cons in H as [_ H].
  - split; [done|]. intros H. by apply Forall_cons in H as [H _].
Qed.

Lemma eqb_TypeReg t : Ascii.eqb t TypeReg = true <-> t = TypeReg.
Proof. apply Ascii.eqb_eq. Qed.

Lemma read_tar_data items data :
  read_tar items = Some (inr data) <->
  exists pre name post,
    items = pre ++ Header TypeReg name (inr data) :: post /\
    Forall (fun it => skipped it = true) pre.
Proof.
  induction items as [|[t name body|err] items IH]; cbn.
  - split; [done|]. intros (pre & name & post & H & _). by destruct pre.
  - destruct (Ascii.eqb t TypeReg) eqn:Ht.
    + apply eqb_TypeReg in Ht as ->. split.
      * destruct body as [e|d]; [done|]. intros [= ->].
        exists [], name, items. split; [done|constructor].
      * intros (pre & name' & post & H & Hpre). destruct pre as [|it pre].
        -- cbn in H. by injection H as -> -> ->.
        -- cbn in H. injection H as <- ->.
           apply Forall_cons in Hpre as [Hit _]. done.
    + rewrite IH. split.
      * intros (pre & name' & post & -> & Hpre).
        exists (Header t name body :: pre), name', post. split; [done|].
        constructor; [cbn; by rewrite Ht|exact Hpre].
      * intros (pre & name' & post & H & Hpre). destruct pre as [|it pre].
        -- cbn in H. injection H as -> _ _ _.
           by rewrite (proj2 (eqb_TypeReg TypeReg) eq_refl) in Ht.
        -- cbn in H. injection H as <- ->.
           apply Forall_cons in Hpre as [_ Hpre]. by exists pre, name', post.
  - split; [done|]. intros (pre & name & post & H & Hpre).
    destruct pre as [|it pre]; cbn in H; [done|].
    injection H as <- ->. by apply Forall_cons in Hpre as [Hit _].
Qed.

Lemma read_tar_error items e :
  read_tar items = Some (inl e) ->
  code_of e = "FailedToReadFromTar" \/ code_of e = "FailedToReadFileFromTar".
Proof.
  induction items as [|[t name body|err] items IH]; cbn; [done| |].
  - destruct (Ascii.eqb t TypeReg); [|exact IH].
    destruct body; [|done]. intros [= <-]. by right.
  - intros [= <-]. by left.
Qed.

(** C9, as the code has it. Once the throwaway container is created, every
    exit path of [ReadFileFromBuilder] ends with a [ContainerStop] and then
    a [ContainerRemove] of that container, whatever was called in between
    and whatever the two calls answer. When the container starts and the
    copy delivers an archive, the result is [ErrFileNotFoundInTar] exactly
    when every entry of the archive is a header of another type than
    regular file (no entry is compared with the requested path), and the
    result is the bytes [data] exactly when the first entry that is not such
    a header is a regular file that reads as [data]. *)
Theorem ReadFileFromBuilder_archive (f : BuilderFactory) (filePath : string)
  (w : World) :
  imageNameTo f <> "" ->
  reply_err (respond w (calls w) (create_call f)) = None ->
  let id := reply_id (respond w (calls w) (create_call f)) in
  let res := (ReadFileFromBuilder f filePath w).1 in
  let after := calls (ReadFileFromBuilder f filePath w).2 in
  (exists mid,
      after = (calls w ++ [create_call f]) ++ mid
              ++ [ContainerStop id stop_timeout; ContainerRemove id]) /\
  (forall items,
      copied f filePath w id items ->
      (res = inl ErrFileNotFoundInTar <->
       Forall (fun it => skipped it = true) items) /\
      (forall data,
          res = inr data <->
          exists pre name post,
            items = pre ++ Header TypeReg name (inr data) :: post /\
            Forall (fun it => skipped it = true) pre)).
Proof.
  intros Hname Hcreate. cbn zeta.
  unfold ReadFileFromBuilder.
  apply String.eqb_neq in Hname. rewrite Hname.
  unfold call. cbn [fst snd respond calls].
  fold (create_call f). rewrite Hcreate.
  set (id := reply_id (respond w (calls w) (create_call f))).
  unfold read_started, stop_and_remove, call. cbn [respond calls].
  split.
  - destruct (reply_err (respond w (calls w ++ [create_call f]) (ContainerStart id))).
    { exists [ContainerStart id]. cbn. by rewrite <- !app_assoc. }
    destruct (reply_err (respond w ((calls w ++ [create_call f]) ++ [ContainerStart id])
                           (CopyFromContainer id filePath))).
    { exists [ContainerStart id; CopyFromContainer id filePath].
      cbn. by rewrite <- !app_assoc. }
    exists [ContainerStart id; CopyFromContainer id filePath; ReaderClose id].
    cbn. by rewrite <- !app_assoc.
  - intros items (_ & _ & Hstart & Hcopy & Hitems).
    rewrite Hstart, Hcopy, Hitems. cbn [fst].
    destruct (read_tar items) as [[e|data']|] eqn:Hread.
    + split.
      * split.
        -- intros [= ->]. apply read_tar_error in Hread. by destruct Hread.
        -- intros H. apply read_tar_None in H. congruence.
      * intros data. split; [done|]. intros H. apply read_tar_data in H. congruence.
    + split.
      * split; [done|]. intros H. apply read_tar_None in H. congruence.
      * intros data. rewrite <- read_tar_data, Hread. split; congruence.
    + split.
      * split; [intros _; by apply read_tar_None|done].
      * intros data. split; [done|]. intros H. apply read_tar_data in H. congruence.
Qed.

Lemma data_archive_copied :
  copied pushed_factory "/data" (host data_archive) "c1" data_archive.
Proof. repeat split. Qed.

(** Reading the directory [/data]: the bytes of its first file come back,
    and the container is stopped and removed. *)
Lemma ReadFileFromBuilder_archive_witness :
  (ReadFileFromBuilder pushed_factory "/data" (host data_archive)).1 = inr [x41] /\
  exists mid,
    calls (ReadFileFromBuilder pushed_factory "/data" (host data_archive)).2
    = ([] ++ [create_call pushed_factory]) ++ mid
      ++ [ContainerStop "c1" stop_timeout; ContainerRemove "c1"].
Proof.
  destruct (ReadFileFromBuilder_archive pushed_factory "/data" (host data_archive))
    as [Hend Harch]; [discriminate|reflexivity|].
  split; [|exact Hend].
  destruct (Harch data_archive data_archive_copied) as [_ Hdata].
  apply Hdata.
  exists [Header TypeDir "data/" (inr [])], "data/a.txt",
         [Header TypeReg "data/b.txt" (inr [x42])].
  split; [reflexivity|]. by repeat constructor.
Defined.

(** C9, as stated, fails: the archive of the directory [/data] holds no
    regular-file entry matching the requested path, and the result is not
    the file-not-found error but the bytes of the first file. *)
Lemma ReadFileFromBuilder_match_counterexample :
  ~ (forall (f : BuilderFactory) (filePath : string) (w : World) (id : string)
            (items : list TarItem),
        imageNameTo f <> "" ->
        copied f filePath w id items ->
        ((ReadFileFromBuilder f filePath w).1 = inl ErrFileNotFoundInTar <->
         existsb (matching_regular filePath) items = false)).
Proof.
  intros H.
  destruct (H pushed_factory "/data" (host data_archive) "c1" data_archive)
    as [_ Hnone]; [discriminate|exact data_archive_copied|].
  assert ((ReadFileFromBuilder pushed_factory "/data" (host data_archive)).1
          = inl ErrFileNotFoundInTar) as Hres by (apply Hnone; reflexivity).
  vm_compute in Hres. discriminate.
Qed.

(** ** The order of the names *)

Lemma compare_refl (s : string) : String.compare s s = Eq.
Proof.
  induction s as [|c s IH]; cbn; [done|].
  unfold Ascii.compare. by rewrite N.compare_refl.
Qed.

Lemma compare_lt_trans (a b c : string) :
  String.compare a b = Lt -> String.compare b c = Lt -> String.compare a c = Lt.
Proof.
  revert b c. induction a as [|x a IH]; intros [|y b] [|z c]; cbn; try done.
  unfold Ascii.compare.
  destruct (N.compare_spec (N_of_ascii x) (N_of_ascii y)) as [Hxy|Hxy|Hxy];
    destruct (N.compare_spec (N_of_ascii y) (N_of_ascii z)) as [Hyz|Hyz|Hyz];
    try done.
  - rewrite Hxy, Hyz, N.compare_refl. apply IH.
  - intros _ _. rewrite Hxy. by rewrite (proj2 (N.compare_lt_iff _ _) Hyz).
  - intros _ _. rewrite <- Hyz. by rewrite (proj2 (N.compare_lt_iff _ _) Hxy).
  - intros _ _.
    assert (N_of_ascii x < N_of_ascii z)%N as Hxz by lia.
    by rewrite (proj2 (N.compare_lt_iff _ _) Hxz).
Qed.

Lemma leb_cases (a b : string) :
  String.leb a b = true <-> String.compare a b = Lt \/ a = b.
Proof.
  unfold String.leb. split.
  - destruct (String.compare a b) eqn:H; [|by left|done].
    intros _. right. by apply String.compare_eq_iff.
  - intros [-> | ->]; [done|]. by rewrite compare_refl.
Qed.

Lemma leb_trans (a b c : string) :
  String.leb a b = true -> String.leb b c = true -> String.leb a c = true.
Proof.
  rewrite !leb_cases. intros [Hab | ->] [Hbc | ->]; eauto using compare_lt_trans.
Qed.

(** ** Sorting by name *)

Lemma insert_by_name_perm {A} (e : string * A) l :
  Permutation (insert_by_name e l) (e :: l).
Proof.
  induction l as [|x l IH]; cbn; [done|].
  destruct (String.leb e.1 x.1); [done|].
  rewrite IH. apply perm_swap.
Qed.

Lemma sort_by_name_perm {A} (l : list (string * A)) :
  Permutation (sort_by_name l) l.
Proof.
  induction l as [|x l IH]; cbn; [done|].
  fold (sort_by_name l). by rewrite insert_by_name_perm, IH.
Qed.

Lemma insert_by_name_sorted {A} (e : string * A) l :
  StronglySorted by_name l -> StronglySorted by_name (insert_by_name e l).
Proof.
  induction 1 as [|x l Hl IH Hx]; cbn.
  - repeat constructor.
  - destruct (String.leb e.1 x.1) eqn:He.
    + constructor; [by constructor|].
      constructor; [exact He|].
      eapply Forall_impl; [exact Hx|]. intros y Hy. unfold by_name in *.
      by eapply leb_trans.
    + constructor; [exact IH|].
      rewrite insert_by_name_perm. constructor; [|exact Hx].
      unfold by_name. destruct (String.leb_total e.1 x.1); congruence.
Qed.

Lemma sort_by_name_sorted {A} (l : list (string * A)) :
  StronglySorted by_name (sort_by_name l).
Proof.
  induction l as [|x l IH]; cbn; [constructor|].
  by apply insert_by_name_sorted.
Qed.

Lemma sorted_unique {A} (l1 l2 : list (string * A)) :
  StronglySorted by_name l1 -> StronglySorted by_name l2 ->
  Permutation l1 l2 -> NoDup (List.map fst l1) -> l1 = l2.
Proof.
  intros H1. revert l2. induction H1 as [|a l1 Hs1 IH Ha]; intros l2 H2 Hp Hnd.
  - apply Permutation_nil_l in Hp. by subst.
  - destruct H2 as [|b l2 Hs2 Hb].
    + by apply Permutation_nil_r in Hp.
    + cbn in Hnd. apply NoDup_cons in Hnd as [Hna Hnd].
      assert (a = b) as <-.
      { assert (a ∈ b :: l2) as Hin by (rewrite <- Hp; set_solver).
        assert (b ∈ a :: l1) as Hin' by (rewrite Hp; set_solver).
        apply elem_of_cons in Hin as [->|Hin]; [done|].
        apply elem_of_cons in Hin' as [->|Hin']; [done|].
        rewrite Forall_forall in Ha, Hb.
        assert (a.1 = b.1) as Heq
          by (apply String.leb_antisym; [by apply Ha|by apply Hb]).
        exfalso. apply Hna. rewrite Heq. apply list_elem_of_fmap.
        by exists b. }
      f_equal. apply IH; [done| |done].
      by apply Permutation_cons_inv in Hp.
Qed.

Lemma sort_by_name_invariant {A} (l1 l2 : list (string * A)) :
  Permutation l1 l2 -> NoDup (List.map fst l1) ->
  sort_by_name l1 = sort_by_name l2.
Proof.
  intros Hp Hnd. apply sorted_unique.
  - apply sort_by_name_sorted.
  - apply sort_by_name_sorted.
  - by rewrite !sort_by_name_perm.
  - eapply NoDup_Permutation_proper; [|exact Hnd].
    apply Permutation_map. apply sort_by_name_perm.
Qed.

Lemma insert_by_name_map {A B} (g : A -> B) (e : string * A) l :
  insert_by_name (e.1, g e.2) (List.map (fun x => (x.1, g x.2)) l)
  = List.map (fun x => (x.1, g x.2)) (insert_by_name e l).
Proof.
  induction l as [|x l IH]; cbn; [done|].
  destruct (String.leb e.1 x.1); cbn; [done|]. by rewrite IH.
Qed.

Lemma sort_by_name_map {A B} (g : A -> B) (l : list (string * A)) :
  sort_by_name (List.map (fun x => (x.1, g x.2)) l)
  = List.map (fun x => (x.1, g x.2)) (sort_by_name l).
Proof.
  induction l as [|x l IH]; cbn; [done|].
  fold (sort_by_name l).
  fold (sort_by_name (List.map (fun x => (x.1, g x.2)) l)).
  rewrite IH. apply (insert_by_name_map g x).
Qed.

(** ** The walk and the files *)

(** Induction on a node with the hypothesis for every entry of a directory. *)
Lemma node_ind' (P : node -> Prop)
  (HFile : forall c, P (File c))
  (HNoRead : forall e, P (NoRead e))
  (HDir : forall es, Forall (fun e => P e.2) es -> P (Dir es))
  (HNoList : forall e, P (NoList e)) :
  forall n, P n.
Proof.
  fix IH 1. intros [c|e|es|e].
  - apply HFile.
  - apply HNoRead.
  - apply HDir. induction es as [|[name child] es IHes].
    + constructor.
    + constructor; [apply IH|exact IHes].
  - apply HNoList.
Qed.

Lemma map_entries {B} (g : node -> B) (es : list (string * node)) :
  List.map (fun e => let '(name, child) := e in (name, g child)) es
  = List.map (fun e => (e.1, g e.2)) es.
Proof. apply map_ext. by intros [name child]. Qed.

Lemma files_of_Dir es :
  files_of (Dir es)
  = concat_all (List.map (fun e => files_of e.2) (sort_by_name es)).
Proof.
  cbn [files_of]. rewrite map_entries, sort_by_name_map, List.map_map.
  reflexivity.
Qed.

Lemma walk_Dir fn es path h :
  walk fn (Dir es) path h =
  match fn path (Dir es) None h with
  | (h', Some err1) => (h', Some err1)
  | (h', None) =>
      walk_names path (List.map (fun e => (e.1, walk fn e.2)) (sort_by_name es)) h'
  end.
Proof.
  cbn [walk]. destruct (fn path (Dir es) None h) as [h' [e|]]; [done|].
  by rewrite map_entries, sort_by_name_map.
Qed.

Lemma walk_names_appends path (l : list (string * node)) h :
  Forall (fun e => appends e.2) l ->
  match concat_all (List.map (fun e => files_of e.2) l) with
  | Some c =>
      walk_names path (List.map (fun e => (e.1, walk hash_entry e.2)) l) h
      = (h ++ c, None)
  | None =>
      exists h' e,
        walk_names path (List.map (fun e => (e.1, walk hash_entry e.2)) l) h
        = (h', Some e)
  end.
Proof.
  intros Hl. revert h. induction Hl as [|[name child] l Hx Hl IH]; intros h.
  - cbn. by rewrite app_nil_r.
  - cbn [List.map concat_all walk_names fst snd].
    specialize (Hx (path_join path name) h). cbn [snd] in Hx.
    destruct (files_of child) as [c|].
    + rewrite Hx. specialize (IH (h ++ c)).
      destruct (concat_all _) as [r|].
      * rewrite IH. by rewrite <- app_assoc.
      * exact IH.
    + destruct Hx as (h' & e & ->). eauto.
Qed.

Lemma walk_appends n : appends n.
Proof.
  induction n as [c|e|es IH|e] using node_ind'; intros path h.
  - reflexivity.
  - cbn. eauto.
  - rewrite files_of_Dir, walk_Dir. cbn [hash_entry IsDir negb].
    apply walk_names_appends.
    by rewrite sort_by_name_perm.
  - cbn. eauto.
Qed.

(** [GenerateImageHash] is the digest, in hexadecimal, of [hashed]; and an
    error with the empty string when there is nothing to hash. *)
Lemma GenerateImageHash_hashed f fs :
  match hashed f fs with
  | Some x => GenerateImageHash f fs = (Sprintf_x (Sha256.Sum256 x), None)
  | None => exists e, GenerateImageHash f fs = ("", Some e)
  end.
Proof.
  unfold hashed, GenerateImageHash, Walk, Sha256.Write, Sha256.New, Sha256.Sum.
  cbn [app].
  destruct (fs (buildContext f)) as [e|n].
  - cbn. eauto.
  - pose proof (walk_appends n (buildContext f)
                  (list_byte_of_string (Join (dockerFileInstructions f) LF))) as H.
    destruct (files_of n) as [c|].
    + by rewrite H.
    + destruct H as (h' & e & ->). eauto.
Qed.

(** ** The same files give the same bytes *)

Lemma same_tree_Dir_inv es n2 :
  same_tree (Dir es) n2 ->
  exists es' es2,
    n2 = Dir es' /\ NoDup (List.map fst es) /\ Permutation es' es2 /\
    Forall2 (fun a b => a.1 = b.1 /\ same_tree a.2 b.2) es es2.
Proof. intros H. inversion H; subst. eauto 10. Qed.

Lemma same_tree_files n1 : forall n2, same_tree n1 n2 -> files_of n1 = files_of n2.
Proof.
  induction n1 as [c|e|es IH|e] using node_ind'; intros n2 H;
    [by inversion H|by inversion H| |by inversion H].
  apply same_tree_Dir_inv in H as (es1 & es2 & -> & Hnd & Hperm & Hall).
  rewrite !files_of_Dir.
  assert (List.map (fun e => (e.1, files_of e.2)) es
          = List.map (fun e => (e.1, files_of e.2)) es2) as Hmap.
  { clear Hnd Hperm. induction Hall as [|a b l l' [Hn Hab] Hl IHl]; [done|].
    apply Forall_cons in IH as [IHa IH]. cbn. rewrite Hn, (IHa _ Hab).
    f_equal. by apply IHl. }
  assert (sort_by_name (List.map (fun e => (e.1, files_of e.2)) es)
          = sort_by_name (List.map (fun e => (e.1, files_of e.2)) es1)) as Hsort.
  { rewrite Hmap. apply sort_by_name_invariant.
    - apply Permutation_map. by symmetry.
    - rewrite <- Hmap, List.map_map. cbn. exact Hnd. }
  rewrite !sort_by_name_map in Hsort.
  apply (f_equal (List.map snd)) in Hsort. rewrite !List.map_map in Hsort.
  cbn in Hsort. by rewrite Hsort.
Qed.

Lemma hashed_same f1 f2 fs1 fs2 :
  dockerFileInstructions f1 = dockerFileInstructions f2 ->
  same_context (fs1 (buildContext f1)) (fs2 (buildContext f2)) ->
  hashed f1 fs1 = hashed f2 fs2.
Proof.
  intros Hi Hc. unfold hashed. rewrite Hi.
  destruct (fs1 (buildContext f1)) as [e1|n1], (fs2 (buildContext f2)) as [e2|n2];
    cbn in Hc; try done.
  by rewrite (same_tree_files n1 n2 Hc).
Qed.

(** C1. [GenerateImageHash] reads the factory and the file system and
    changes neither; its result depends on the instruction list and on the
    build context only, so a second call on the unmodified factory returns
    what the first one did. Two factories with equal instruction lists whose
    build contexts (at whatever paths) hold the same files, in whatever order
    the directories are listed, get the same hash string, and one hashing
    fails exactly when the other does. *)
Theorem GenerateImageHash_deterministic (f1 f2 : BuilderFactory)
  (fs1 fs2 : FileSystem) :
  dockerFileInstructions f1 = dockerFileInstructions f2 ->
  (buildContext f1 = buildContext f2 -> fs1 = fs2 ->
   GenerateImageHash f1 fs1 = GenerateImageHash f2 fs2) /\
  (same_context (fs1 (buildContext f1)) (fs2 (buildContext f2)) ->
   (GenerateImageHash f1 fs1).1 = (GenerateImageHash f2 fs2).1 /\
   ((GenerateImageHash f1 fs1).2 = None <-> (GenerateImageHash f2 fs2).2 = None)).
Proof.
  intros Hi. split.
  - intros Hc ->. unfold GenerateImageHash. by rewrite Hi, Hc.
  - intros Hc. pose proof (hashed_same f1 f2 fs1 fs2 Hi Hc) as Hh.
    pose proof (GenerateImageHash_hashed f1 fs1) as H1.
    pose proof (GenerateImageHash_hashed f2 fs2) as H2.
    rewrite <- Hh in H2. destruct (hashed f1 fs1) as [x|].
    + by rewrite H1, H2.
    + destruct H1 as [e1 ->], H2 as [e2 ->]. by cbn.
Qed.

Lemma site_same : same_tree site site_listed_otherwise.
Proof.
  apply (same_Dir _ _
           [("index.html", File [x68; x69]);
            ("css", Dir [("a.css", File [x61]); ("b.css", File [x62])])]).
  - cbn. apply NoDup_cons. split; [set_solver|]. apply NoDup_singleton.
  - apply perm_swap.
  - repeat constructor.
    apply (same_Dir _ _ [("b.css", File [x62]); ("a.css", File [x61])]).
    + cbn. apply NoDup_cons. split; [set_solver|]. apply NoDup_singleton.
    + apply perm_swap.
    + repeat constructor.
Qed.

Lemma GenerateImageHash_deterministic_witness :
  GenerateImageHash pushed_factory (disk site site_listed_otherwise)
  = ("2385542d1a51a6c10329b3455d4fcd6ae629a0b99a89710d2c10a8018d2fed0e", None) /\
  (GenerateImageHash other_factory (disk site site_listed_otherwise)).1
  = "2385542d1a51a6c10329b3455d4fcd6ae629a0b99a89710d2c10a8018d2fed0e".
Proof.
  assert (GenerateImageHash pushed_factory (disk site site_listed_otherwise)
          = ("2385542d1a51a6c10329b3455d4fcd6ae629a0b99a89710d2c10a8018d2fed0e",
             None)) as H1 by (vm_compute; reflexivity).
  split; [exact H1|].
  destruct (GenerateImageHash_deterministic pushed_factory other_factory
              (disk site site_listed_otherwise) (disk site site_listed_otherwise))
    as [_ H]; [reflexivity|].
  destruct H as [H _]; [exact site_same|].
  rewrite <- H, H1. reflexivity.
Defined.

(** ** A change of the input changes the bytes *)

Lemma unhex_hex b s : unhex_byte (hex_byte b +:+ s) = b.
Proof. destruct b; reflexivity. Qed.

Lemma hex_byte_app b s :
  exists c1 c2, hex_byte b +:+ s = String c1 (String c2 s).
Proof. unfold hex_byte. cbn. eauto. Qed.

Lemma Sprintf_x_inj bs bs' : Sprintf_x bs = Sprintf_x bs' -> bs = bs'.
Proof.
  revert bs'. induction bs as [|b bs IH]; intros [|b' bs']; cbn [Sprintf_x].
  - done.
  - destruct (hex_byte_app b' (Sprintf_x bs')) as (c1 & c2 & ->). done.
  - destruct (hex_byte_app b (Sprintf_x bs)) as (c1 & c2 & ->). done.
  - intros H. assert (b = b') as <-.
    { rewrite <- (unhex_hex b (Sprintf_x bs)), H. apply unhex_hex. }
    f_equal. apply IH.
    destruct (hex_byte_app b (Sprintf_x bs)) as (c1 & c2 & E1).
    destruct (hex_byte_app b (Sprintf_x bs')) as (c1' & c2' & E2).
    rewrite E1, E2 in H. by injection H.
Qed.

Lemma list_byte_of_string_inj s s' :
  list_byte_of_string s = list_byte_of_string s' -> s = s'.
Proof.
  intros H. apply (f_equal string_of_list_byte) in H.
  by rewrite !string_of_list_byte_of_string in H.
Qed.

Lemma length_append (s1 s2 : string) :
  String.length (s1 +:+ s2) = String.length s1 + String.length s2.
Proof.
  induction s1 as [|c s1 IH]; [done|].
  change (String c s1 +:+ s2) with (String c (s1 +:+ s2)).
  cbn [String.length]. by rewrite IH.
Qed.

Lemma list_sum_cons (x : nat) (l : list nat) : list_sum (x :: l) = x + list_sum l.
Proof. reflexivity. Qed.

(** The length of a joined text counts every element and one separator
    between two elements. *)
Lemma Join_length (l : list string) (sep : string) :
  l <> [] ->
  String.length (Join l sep) + String.length sep
  = list_sum (List.map (fun s => String.length s + String.length sep) l).
Proof.
  unfold Join. induction l as [|a [|b l] IH]; intros Hne; [done|cbn; lia|].
  change (String.concat sep (a :: b :: l))
    with (a +:+ sep +:+ String.concat sep (b :: l)).
  rewrite !length_append. rewrite List.map_cons, list_sum_cons.
  assert (b :: l <> []) as Hbl by done. specialize (IH Hbl).
  rewrite <- IH. lia.
Qed.

Lemma Join_add_ne (l1 l2 : list string) (s sep : string) :
  l1 ++ l2 <> [] -> sep <> EmptyString ->
  Join (l1 ++ l2) sep <> Join (l1 ++ s :: l2) sep.
Proof.
  intros Hne Hsep Heq.
  assert (l1 ++ s :: l2 <> []) as Hne' by (by destruct l1).
  pose proof (Join_length _ sep Hne) as H1.
  pose proof (Join_length _ sep Hne') as H2.
  rewrite Heq in H1. rewrite H1 in H2.
  rewrite !List.map_app, !list_sum_app, List.map_cons, list_sum_cons in H2.
  destruct sep; [done|]. cbn [String.length] in H2. lia.
Qed.

Lemma LF_app (t : string) : LF +:+ t = String (ascii_of_nat 10) t.
Proof. reflexivity. Qed.

Lemma split_at_LF (s1 t1 s2 t2 : string) :
  has_LF s1 = false -> has_LF s2 = false ->
  s1 +:+ LF +:+ t1 = s2 +:+ LF +:+ t2 -> s1 = s2 /\ t1 = t2.
Proof.
  rewrite !LF_app. revert s2.
  induction s1 as [|c s1 IH]; intros [|c' s2] H1 H2 H.
  - by injection H as ->.
  - exfalso. change (String (ascii_of_nat 10) t1
                     = String c' (s2 +:+ String (ascii_of_nat 10) t2)) in H.
    injection H as <- _. cbn in H2. by rewrite Ascii.eqb_refl in H2.
  - exfalso. change (String c (s1 +:+ String (ascii_of_nat 10) t1)
                     = String (ascii_of_nat 10) t2) in H.
    injection H as -> _. cbn in H1. by rewrite Ascii.eqb_refl in H1.
  - change (String c (s1 +:+ String (ascii_of_nat 10) t1)
            = String c' (s2 +:+ String (ascii_of_nat 10) t2)) in H.
    injection H as -> H. cbn in H1, H2.
    apply orb_false_elim in H1 as [_ H1]. apply orb_false_elim in H2 as [_ H2].
    destruct (IH s2 H1 H2 H) as [-> ->]. done.
Qed.

Lemma Join_LF_inj (l1 l2 : list string) :
  List.length l1 = List.length l2 ->
  Forall (fun s => has_LF s = false) l1 ->
  Forall (fun s => has_LF s = false) l2 ->
  Join l1 LF = Join l2 LF -> l1 = l2.
Proof.
  unfold Join. revert l2.
  induction l1 as [|a [|a' l1] IH]; intros [|b [|b' l2]] Hlen H1 H2; try done.
  - cbn. by intros ->.
  - change (String.concat LF (a :: a' :: l1))
      with (a +:+ LF +:+ String.concat LF (a' :: l1)).
    change (String.concat LF (b :: b' :: l2))
      with (b +:+ LF +:+ String.concat LF (b' :: l2)).
    apply Forall_cons in H1 as [Ha H1]. apply Forall_cons in H2 as [Hb H2].
    intros H. apply split_at_LF in H as [-> H]; [|done..].
    f_equal. apply IH; [|done..]. cbn in *. lia.
Qed.

Lemma concat_all_app_eq l1 l2 :
  concat_all (l1 ++ l2) =
  match concat_all l1, concat_all l2 with
  | Some a, Some b => Some (a ++ b)
  | _, _ => None
  end.
Proof.
  induction l1 as [|o l1 IH]; cbn.
  - by destruct (concat_all l2).
  - rewrite IH. destruct o, (concat_all l1), (concat_all l2); try done.
    by rewrite <- app_assoc.
Qed.

Lemma concat_all_app l1 l2 c :
  concat_all (l1 ++ l2) = Some c <->
  exists a b, concat_all l1 = Some a /\ concat_all l2 = Some b /\ c = a ++ b.
Proof.
  rewrite concat_all_app_eq.
  destruct (concat_all l1) as [a|], (concat_all l2) as [b|]; split;
    try done; try (by intros (? & ? & ? & ? & ?)).
  - intros [= <-]. by exists a, b.
  - by intros (a' & b' & [= <-] & [= <-] & ->).
Qed.

Lemma both_fst es : List.map (fun x => (x.1, x.2.1)) (List.map both es) = es.
Proof. induction es as [|[a b] es IH]; cbn; [done|]. by rewrite IH. Qed.

Lemma both_snd es : List.map (fun x => (x.1, x.2.2)) (List.map both es) = es.
Proof. induction es as [|[a b] es IH]; cbn; [done|]. by rewrite IH. Qed.

Lemma byte_changed_files n n' :
  byte_changed n n' ->
  forall c, files_of n = Some c ->
  exists A b b' B,
    b <> b' /\ c = A ++ b :: B /\ files_of n' = Some (A ++ b' :: B).
Proof.
  induction 1 as [pre b b' post Hb|es1 name n n' es2 Hn IH]; intros c Hc.
  - cbn in Hc. injection Hc as <-. by exists pre, b, b', post.
  - rewrite files_of_Dir in Hc. rewrite files_of_Dir.
    set (L := List.map both es1 ++ (name, (n, n')) :: List.map both es2).
    assert (es1 ++ (name, n) :: es2 = List.map (fun x => (x.1, x.2.1)) L) as E1.
    { unfold L. by rewrite List.map_app, List.map_cons, !both_fst. }
    assert (es1 ++ (name, n') :: es2 = List.map (fun x => (x.1, x.2.2)) L) as E2.
    { unfold L. by rewrite List.map_app, List.map_cons, !both_snd. }
    rewrite E1, sort_by_name_map, List.map_map in Hc.
    rewrite E2, sort_by_name_map, List.map_map. cbn [snd] in Hc |- *.
    assert ((name, (n, n')) ∈ sort_by_name L) as Hin.
    { rewrite sort_by_name_perm. unfold L. set_solver. }
    apply list_elem_of_split in Hin as (q1 & q2 & Hq).
    assert (Forall (fun x : string * (node * node) => x.2.1 = x.2.2) (q1 ++ q2))
      as Hdiag.
    { assert (Permutation (q1 ++ q2) (List.map both es1 ++ List.map both es2)) as Hp.
      { apply (Permutation_cons_inv (a := (name, (n, n')))).
        rewrite !Permutation_middle, <- Hq. apply sort_by_name_perm. }
      rewrite Hp. apply Forall_app. split; apply Forall_forall;
        intros x (y & -> & _)%list_elem_of_fmap; done. }
    apply Forall_app in Hdiag as [Hd1 Hd2].
    assert (forall q, Forall (fun x : string * (node * node) => x.2.1 = x.2.2) q ->
              List.map (fun x => files_of x.2.1) q
              = List.map (fun x => files_of x.2.2) q) as Hsame.
    { intros q Hd. induction Hd as [|x q Hx Hd IHq]; [done|].
      cbn. by rewrite Hx, IHq. }
    rewrite Hq, List.map_app in Hc. rewrite Hq, List.map_app.
    cbn [List.map snd fst] in Hc |- *.
    apply concat_all_app in Hc as (a & r & Ha & Hr & ->).
    cbn [concat_all] in Hr.
    destruct (files_of n) as [cn|] eqn:Hcn; [|done].
    destruct (concat_all (List.map _ q2)) as [r2|] eqn:Hr2; [|done].
    injection Hr as <-.
    destruct (IH cn eq_refl) as (A & b & b' & B & Hb & -> & Hn').
    exists (a ++ A), b, b', (B ++ r2). split; [done|]. split.
    + by rewrite <- !app_assoc.
    + apply concat_all_app. exists a, ((A ++ b' :: B) ++ r2).
      split; [by rewrite <- (Hsame q1 Hd1)|]. split.
      * cbn [concat_all]. rewrite Hn', <- (Hsame q2 Hd2), Hr2. done.
      * by rewrite <- !app_assoc.
Qed.

Lemma hashed_Some f fs h :
  GenerateImageHash f fs = (h, None) ->
  exists x, hashed f fs = Some x /\ h = Sprintf_x (Sha256.Sum256 x).
Proof.
  intros H. pose proof (GenerateImageHash_hashed f fs) as Hh.
  destruct (hashed f fs) as [x|].
  - exists x. split; [done|]. congruence.
  - destruct Hh as [e He]. congruence.
Qed.

Lemma hashed_split f fs x :
  hashed f fs = Some x ->
  exists n c, fs (buildContext f) = inr n /\ files_of n = Some c /\
              x = list_byte_of_string (Join (dockerFileInstructions f) LF) ++ c.
Proof.
  unfold hashed. destruct (fs (buildContext f)) as [e|n] eqn:Hn; [done|].
  destruct (files_of n) as [c|] eqn:Hc; [|done]. intros [= <-].
  by exists n, c.
Qed.

Lemma LF_not_empty : LF <> EmptyString.
Proof. done. Qed.

Lemma single_change_bytes f f' fs fs' x x' :
  single_change (f, fs) (f', fs') ->
  hashed f fs = Some x -> hashed f' fs' = Some x' -> x <> x'.
Proof.
  intros Hch Hx Hx'.
  apply hashed_split in Hx as (n & c & Hn & Hc & ->).
  apply hashed_split in Hx' as (n' & c' & Hn' & Hc' & ->).
  inversion Hch as [g g' gs l1 s l2 Hne Hl Hl' Hctx
                   |g g' gs l1 s l2 Hne Hl Hl' Hctx
                   |g g' gs Hperm Hdiff Hlf Hctx
                   |g g' gs gs' m m' Hl Hm Hm' Hbyte]; subst.
  - rewrite Hctx, Hn in Hn'. injection Hn' as <-.
    rewrite Hc in Hc'. injection Hc' as <-.
    rewrite Hl, Hl'. intros H%app_inv_tail%list_byte_of_string_inj.
    by apply (Join_add_ne l1 l2 s LF Hne LF_not_empty).
  - rewrite Hctx, Hn in Hn'. injection Hn' as <-.
    rewrite Hc in Hc'. injection Hc' as <-.
    rewrite Hl, Hl'. intros H%app_inv_tail%list_byte_of_string_inj.
    by apply (Join_add_ne l1 l2 s LF Hne LF_not_empty).
  - rewrite Hctx, Hn in Hn'. injection Hn' as <-.
    rewrite Hc in Hc'. injection Hc' as <-.
    intros H%app_inv_tail%list_byte_of_string_inj.
    apply Hdiff. apply Join_LF_inj; [by apply Permutation_length|done| |done].
    by rewrite <- Hperm.
  - rewrite Hn in Hm. injection Hm as <-. rewrite Hn' in Hm'. injection Hm' as <-.
    destruct (byte_changed_files n n' Hbyte c Hc) as (A & b & b' & B & Hb & -> & Hc2).
    rewrite Hc' in Hc2. injection Hc2 as ->. rewrite Hl.
    intros H%app_inv_head%app_inv_head. congruence.
Qed.

(** C4, as the code has it. When [GenerateImageHash] succeeds before and
    after one change (an instruction added to or removed from a list that
    holds the [FROM] line, instructions without line feeds put in another
    order, or one byte of one file of the build context changed), the bytes
    fed to SHA-256 differ, each hash is the hexadecimal digest of its bytes,
    and the two hashes are equal only if SHA-256 gives these two different
    byte strings the same digest. *)
Theorem GenerateImageHash_sensitive (f f' : BuilderFactory) (fs fs' : FileSystem)
  (h h' : string) :
  GenerateImageHash f fs = (h, None) ->
  GenerateImageHash f' fs' = (h', None) ->
  single_change (f, fs) (f', fs') ->
  exists x x',
    hashed f fs = Some x /\ hashed f' fs' = Some x' /\
    x <> x' /\
    h = Sprintf_x (Sha256.Sum256 x) /\ h' = Sprintf_x (Sha256.Sum256 x') /\
    (h = h' -> Sha256.Sum256 x = Sha256.Sum256 x').
Proof.
  intros H H' Hch.
  apply hashed_Some in H as (x & Hx & ->).
  apply hashed_Some in H' as (x' & Hx' & ->).
  exists x, x'. repeat split; try done.
  - by apply (single_change_bytes f f' fs fs').
  - apply Sprintf_x_inj.
Qed.

Lemma site_byte_changed : byte_changed site site_edited.
Proof.
  apply (changed_below [] "index.html" (File [x68; x69]) (File [x68; x6a])).
  by apply (changed_here [x68] x69 x6a []).
Qed.

(** One byte of [index.html] changes: the hash changes. *)
Lemma GenerateImageHash_sensitive_witness :
  GenerateImageHash pushed_factory (disk site site)
  = ("2385542d1a51a6c10329b3455d4fcd6ae629a0b99a89710d2c10a8018d2fed0e", None) /\
  GenerateImageHash pushed_factory (disk site_edited site)
  = ("79e1b92d06e2c12c1b6f07e9e8ad7c8da114f234a3dfe54e8361cf226a37364b", None) /\
  hashed pushed_factory (disk site site)
  <> hashed pushed_factory (disk site_edited site).
Proof.
  assert (GenerateImageHash pushed_factory (disk site site)
          = ("2385542d1a51a6c10329b3455d4fcd6ae629a0b99a89710d2c10a8018d2fed0e",
             None)) as H1 by (vm_compute; reflexivity).
  assert (GenerateImageHash pushed_factory (disk site_edited site)
          = ("79e1b92d06e2c12c1b6f07e9e8ad7c8da114f234a3dfe54e8361cf226a37364b",
             None)) as H2 by (vm_compute; reflexivity).
  split; [exact H1|]. split; [exact H2|].
  destruct (GenerateImageHash_sensitive _ _ _ _ _ _ H1 H2)
    as (x & x' & -> & -> & Hne & _).
  - apply (change_byte _ _ _ _ site site_edited); try reflexivity.
    exact site_byte_changed.
  - congruence.
Defined.

(** Both instruction lists come out of the public interface. *)
Example lines_first_built :
  lines_first
  = edited base_factory
      [EditExecuteCmd ["a"]; EditExecuteCmd ["a" +:+ LF +:+ "RUN"; "a"]].
Proof. reflexivity. Qed.

Example lines_swapped_built :
  lines_swapped
  = edited base_factory
      [EditExecuteCmd ["a" +:+ LF +:+ "RUN"; "a"]; EditExecuteCmd ["a"]].
Proof. reflexivity. Qed.

(** C4, as stated, fails: two factories hold the same three instructions
    in different orders, and get the same hash, because the instruction
    that spans two lines joins to the same text on either side of the
    other. *)
Lemma GenerateImageHash_reorder_counterexample :
  ~ (forall (f f' : BuilderFactory) (fs : FileSystem),
        Permutation (dockerFileInstructions f) (dockerFileInstructions f') ->
        dockerFileInstructions f <> dockerFileInstructions f' ->
        buildContext f' = buildContext f ->
        (GenerateImageHash f fs).1 <> (GenerateImageHash f' fs).1).
Proof.
  intros H.
  apply (H lines_first lines_swapped (disk site site)).
  - cbn. apply perm_skip, perm_swap.
  - cbn. discriminate.
  - reflexivity.
  - vm_compute. reflexivity.
Qed.

End container_facts.

(* ===================================================================== *)
(** * More on [Destroy] and [BatchDestroy]: closed stores *)
(* ===================================================================== *)

Module knuu_more.
Import knuu knuu_facts.

(** ** What one [Destroy] does to a closed store *)

Lemma destroyed_lookup m i inst p :
  destroyed m i inst !! p =
  if bool_decide (p = i \/ p ∈ sidecars inst)
  then (fun x => set_state x Destroyed) <$> m !! p
  else m !! p.
Proof.
  unfold destroyed. rewrite set_states_lookup.
  destruct (decide (p ∈ sidecars inst)) as [Hin|Hin].
  - rewrite (bool_decide_eq_true_2 _ Hin).
    rewrite (bool_decide_eq_true_2 (p = i \/ _)) by tauto.
    destruct (decide (i = p)) as [->|Hne].
    + rewrite lookup_alter_eq. by destruct (m !! p).
    + by rewrite lookup_alter_ne.
  - rewrite (bool_decide_eq_false_2 _ Hin).
    destruct (decide (i = p)) as [->|Hne].
    + rewrite (bool_decide_eq_true_2 (p = p \/ _)) by tauto.
      by rewrite lookup_alter_eq.
    + rewrite (bool_decide_eq_false_2 (p = i \/ _)) by naive_solver.
      by rewrite lookup_alter_ne.
Qed.

Lemma destroyed_live m i inst l : live m l -> live (destroyed m i inst) l.
Proof.
  unfold live. intros H. eapply Forall_impl; [exact H|]. intros p [x Hx].
  rewrite destroyed_lookup, Hx. case_bool_decide; eauto.
Qed.

Lemma destroyed_closed m i inst : closed m -> closed (destroyed m i inst).
Proof.
  intros Hc p x. rewrite destroyed_lookup.
  destruct (m !! p) as [y|] eqn:Hy.
  - case_bool_decide; cbn; intros [= <-]; apply destroyed_live; by apply (Hc p y).
  - by case_bool_decide.
Qed.

(** The outcome of [Destroy] on an instance of a closed store, in one
    statement: the world after it differs by the history and, when the call
    went through, by the states that were set. *)
Lemma Destroy_outcome w i inst :
  closed (instances w) -> instances w !! i = Some inst ->
  exists res h' k,
    Destroy i w
    = Some (res,
            set_history
              (set_instances w
                 (if bool_decide (res = None /\ state inst <> Destroyed)
                  then destroyed (instances w) i inst else instances w)) h') /\
    k <= List.length (plan (instances w) inst) /\
    h' = history w ++ take k (plan (instances w) inst) /\
    (state inst = Started \/ state inst = Stopped -> 0 < k) /\
    (state inst <> Started -> state inst <> Stopped -> k = 0).
Proof.
  intros Hc Hi.
  destruct (decide (state inst = Destroyed)) as [Hd|Hd].
  { exists None, (history w), 0. rewrite bool_decide_eq_false_2 by tauto.
    rewrite set_instances_id, set_history_id. split.
    - unfold Destroy, bind, load. rewrite Hi. by rewrite bool_decide_eq_true_2.
    - split; [lia|]. split; [by rewrite app_nil_r|]. split; [|done].
      intros [H|H]; congruence. }
  destruct (IsInState inst [Started; Stopped; Destroyed]) eqn:Hin.
  2:{ eexists (Some _), (history w), 0. rewrite bool_decide_eq_false_2 by naive_solver.
      rewrite set_instances_id, set_history_id. split.
      - unfold Destroy, bind, load. rewrite Hi.
        rewrite bool_decide_eq_false_2, Hin by done. reflexivity.
      - split; [lia|]. split; [by rewrite app_nil_r|]. split; [|done].
        intros H. assert (IsInState inst [Started; Stopped; Destroyed] = true)
          by (apply IsInState_allowed; tauto). congruence. }
  apply IsInState_allowed in Hin.
  assert (state inst = Started \/ state inst = Stopped) as Hst by tauto.
  pose proof (Destroy_attempt w i inst Hi Hst (Hc i inst Hi)) as HD. cbn zeta in HD.
  destruct (attempt_prefix (respond w) (history w) (plan (instances w) inst))
    as (k & Hk & Hh & _ & Hres).
  destruct ((attempt (respond w) (history w) (plan (instances w) inst)).2) as [e|].
  - destruct HD as [err HD]. destruct Hres as (op & Hpos & _).
    exists (Some err), (attempt (respond w) (history w) (plan (instances w) inst)).1, k.
    rewrite bool_decide_eq_false_2 by naive_solver. rewrite set_instances_id.
    split; [exact HD|]. split; [exact Hk|]. split; [exact Hh|].
    split; [done|]. intros H1 H2. tauto.
  - destruct Hres as [-> _].
    exists None, (attempt (respond w) (history w) (plan (instances w) inst)).1,
           (List.length (plan (instances w) inst)).
    rewrite bool_decide_eq_true_2 by done.
    split; [exact HD|]. split; [lia|]. split; [exact Hh|].
    split; [cbn; lia|]. intros H1 H2. tauto.
Qed.

(** On a closed store, [Destroy] changes nothing but lifecycle states
    and the history of the cluster: the answers of the cluster and the
    environment stay, the history only grows, every pointer points to an
    instance after the call exactly when it did before, with the same name
    and the same sidecars; and the state of an instance is either what it
    was, or it is [Destroyed], which happens only when the call returned nil
    and the instance is the one destroyed or one of its sidecars. *)
Lemma Destroy_keeps (w : World) (i : loc) (inst : Instance) :
  closed (instances w) ->
  instances w !! i = Some inst ->
  exists res w',
    Destroy i w = Some (res, w') /\
    respond w' = respond w /\ getenv w' = getenv w /\
    history w `prefix_of` history w' /\
    closed (instances w') /\
    forall p,
      match instances w !! p with
      | None => instances w' !! p = None
      | Some x =>
          exists x',
            instances w' !! p = Some x' /\
            k8sName x' = k8sName x /\ sidecars x' = sidecars x /\
            (state x' = state x \/
             (state x' = Destroyed /\ res = None /\ (p = i \/ p ∈ sidecars inst)))
      end.
Proof.
  intros Hc Hi.
  destruct (Destroy_outcome w i inst Hc Hi) as (res & h' & k & HD & _ & Hh & _).
  eexists res, _. split; [exact HD|]. cbn [respond getenv history instances set_history set_instances].
  split; [done|]. split; [done|]. split; [rewrite Hh; by eexists|].
  case_bool_decide as Hcase.
  - split; [by apply destroyed_closed|]. intros p. rewrite destroyed_lookup.
    destruct (instances w !! p) as [x|]; [|by case_bool_decide].
    case_bool_decide as Hp; cbn.
    + exists (set_state x Destroyed). cbn. repeat split. right. tauto.
    + exists x. tauto.
  - split; [exact Hc|]. intros p. destruct (instances w !! p) as [x|]; [|done].
    exists x. tauto.
Qed.

(** X1. On a closed store, [Destroy] changes nothing but lifecycle states
    and the history of the cluster: the answers of the cluster and the
    environment stay, the history only grows, every pointer points to an
    instance after the call exactly when it did before, with the same name
    and the same sidecars; and the state of an instance is either what it
    was, or it is [Destroyed], which happens only when the call returned nil
    and the instance is the one destroyed or one of its sidecars. *)
Theorem Destroy_frame (w : World) (i : loc) (inst : Instance) :
  closed (instances w) ->
  instances w !! i = Some inst ->
  exists res w',
    Destroy i w = Some (res, w') /\
    respond w' = respond w /\ getenv w' = getenv w /\
    history w `prefix_of` history w' /\
    closed (instances w') /\
    forall p,
      match instances w !! p with
      | None => instances w' !! p = None
      | Some x =>
          exists x',
            instances w' !! p = Some x' /\
            k8sName x' = k8sName x /\ sidecars x' = sidecars x /\
            (state x' = state x \/
             (state x' = Destroyed /\ res = None /\ (p = i \/ p ∈ sidecars inst)))
      end.
Proof. apply Destroy_keeps. Qed.


Lemma store3_closed : closed store3.
Proof.
  intros p x Hp. unfold store3 in Hp.
  repeat (apply lookup_insert_Some in Hp as [[_ <-]|[_ Hp]];
          [try exact store3_live; constructor|]).
  by rewrite lookup_empty in Hp.
Qed.

Lemma Destroy_frame_witness :
  exists res w',
    Destroy 0 world_side_b_fails = Some (res, w') /\
    state_at w' 1 = Some Started /\ state_at w' 3 = Some StateNone.
Proof.
  pose proof store3_closed as Hc.
  destruct (Destroy_frame world_side_b_fails 0 web Hc eq_refl)
    as (res & w' & HD & _ & _ & _ & _ & Hall).
  exists res, w'. split; [exact HD|].
  destruct res as [e|]; [|vm_compute in HD; discriminate].
  pose proof (Hall 1) as H1. pose proof (Hall 3) as H3.
  cbn in H1, H3. unfold state_at.
  destruct H1 as (x1 & E1 & _ & _ & [S1|(_ & ? & _)]); [|done].
  destruct H3 as (x3 & E3 & _ & _ & [S3|(_ & ? & _)]); [|done].
  rewrite E1, E3. cbn. by rewrite S1, S3.
Defined.

Lemma elem_of_take_plan {A} (x : A) k l : x ∈ take k l -> x ∈ l.
Proof. intros H. rewrite <- (take_drop k l). apply elem_of_app. by left. Qed.

(** X2. On a closed store, the deletions that one [Destroy] asks of the
    cluster concern the instance and its sidecars only: the only Pod whose
    deletion is asked is the instance's own (the sidecars' Pods are never
    asked for), and the only resources are those of the instance and of its
    sidecars. *)
Theorem Destroy_deletes_own (w : World) (i : loc) (inst : Instance) :
  closed (instances w) ->
  instances w !! i = Some inst ->
  exists res w' ops,
    Destroy i w = Some (res, w') /\
    history w' = history w ++ ops /\
    (forall n, DeletePod n ∈ ops -> n = k8sName inst) /\
    (forall n, DeleteResources n ∈ ops ->
               n = k8sName inst \/
               exists s sc, s ∈ sidecars inst /\ instances w !! s = Some sc /\
                            n = k8sName sc).
Proof.
  intros Hc Hi.
  destruct (Destroy_outcome w i inst Hc Hi) as (res & h' & k & HD & _ & Hh & _).
  eexists res, _, (take k (plan (instances w) inst)).
  split; [exact HD|]. split; [exact Hh|]. split.
  - intros n Hn%elem_of_take_plan. unfold plan in Hn.
    apply elem_of_cons in Hn as [[= ->]|Hn]; [done|].
    apply elem_of_cons in Hn as [Hn|Hn]; [done|].
    apply list_elem_of_fmap in Hn as (? & ? & _). done.
  - intros n Hn%elem_of_take_plan. unfold plan in Hn.
    apply elem_of_cons in Hn as [Hn|Hn]; [done|].
    apply elem_of_cons in Hn as [[= ->]|Hn]; [by left|].
    apply list_elem_of_fmap in Hn as (m & [= ->] & Hm). right.
    unfold names_of in Hm. apply list_elem_of_omap in Hm as (s & Hs & Hsc).
    destruct (instances w !! s) as [sc|] eqn:Hl; [|done].
    cbn in Hsc. injection Hsc as <-. by exists s, sc.
Qed.

Lemma Destroy_deletes_own_witness :
  exists res w' ops,
    Destroy 0 world_ok = Some (res, w') /\
    history w' = [] ++ ops /\
    (forall n, DeletePod n ∈ ops -> n = "web").
Proof.
  pose proof store3_closed as Hc.
  destruct (Destroy_deletes_own world_ok 0 web Hc eq_refl)
    as (res & w' & ops & HD & Hh & Hpod & _).
  by exists res, w', ops.
Defined.

(** X3. A [Destroy] that failed on the cluster can be tried again: the
    instance is still [Started] or [Stopped], and the second call starts
    over with the deletion of the Pod and goes through the same deletions in
    the same order, also those that went through the first time. *)
Theorem Destroy_retry (w : World) (i : loc) (inst : Instance) (err : error)
  (w' : World) :
  closed (instances w) ->
  instances w !! i = Some inst ->
  state inst = Started \/ state inst = Stopped ->
  Destroy i w = Some (Some err, w') ->
  instances w' = instances w /\
  exists res2 w2 k,
    Destroy i w' = Some (res2, w2) /\
    0 < k /\
    history w2 = history w' ++ take k (plan (instances w) inst).
Proof.
  intros Hc Hi Hst HD.
  destruct (Destroy_outcome w i inst Hc Hi) as (res & h' & k & HD1 & _).
  rewrite HD1 in HD. injection HD as -> <-.
  rewrite bool_decide_eq_false_2 by naive_solver. cbn [instances set_history set_instances].
  split; [done|].
  destruct (Destroy_outcome (set_history (set_instances w (instances w)) h') i inst)
    as (res2 & h2 & k2 & HD2 & _ & Hh2 & Hpos & _); [done..|].
  eexists res2, _, k2. split; [exact HD2|]. split; [by apply Hpos|].
  exact Hh2.
Qed.

Lemma Destroy_retry_witness :
  exists w' res2 w2 k,
    Destroy 0 world_side_b_fails
    = Some (Some (coded "DestroyingResourcesForSidecars" ["web"]
                        (Some (foreign "deadline exceeded"))), w') /\
    Destroy 0 w' = Some (res2, w2) /\ 0 < k /\
    history w2 = history w' ++ take k (plan store3 web).
Proof.
  destruct (Destroy 0 world_side_b_fails) as [[[e|] w']|] eqn:HD;
    try (vm_compute in HD; discriminate).
  assert (e = coded "DestroyingResourcesForSidecars" ["web"]
                    (Some (foreign "deadline exceeded"))) as ->
    by (vm_compute in HD; by injection HD as <- _).
  destruct (Destroy_retry world_side_b_fails 0 web _ w' store3_closed eq_refl
              (or_introl eq_refl) HD) as (_ & res2 & w2 & k & H2 & Hk & Hh).
  by exists w', res2, w2, k.
Defined.

(** ** Batches on a closed store *)

Lemma evolves_refl w : evolves w w.
Proof.
  repeat split; [done|]. intros p. destruct (instances w !! p) as [x|]; [|done].
  exists x. tauto.
Qed.

Lemma evolves_trans w1 w2 w3 : evolves w1 w2 -> evolves w2 w3 -> evolves w1 w3.
Proof.
  intros (R1 & G1 & H1 & A1) (R2 & G2 & H2 & A2).
  split; [congruence|]. split; [congruence|]. split; [by etrans|].
  intros p. specialize (A1 p). specialize (A2 p).
  destruct (instances w1 !! p) as [x|].
  - destruct A1 as (x' & E1 & N1 & S1 & St1). rewrite E1 in A2.
    destruct A2 as (x'' & E2 & N2 & S2 & St2). exists x''.
    split; [done|]. split; [congruence|]. split; [congruence|].
    destruct St1 as [St1|St1], St2 as [St2|St2]; try (right; congruence).
    left; congruence.
  - by rewrite A1 in A2.
Qed.

Lemma evolves_live w w' l :
  evolves w w' -> live (instances w) l -> live (instances w') l.
Proof.
  intros (_ & _ & _ & A) H. unfold live in *. eapply Forall_impl; [exact H|].
  intros p [x Hx]. specialize (A p). rewrite Hx in A.
  destruct A as (x' & -> & _). eauto.
Qed.

Lemma evolves_Destroyed w w' p :
  evolves w w' -> state_at w p = Some Destroyed -> state_at w' p = Some Destroyed.
Proof.
  intros (_ & _ & _ & A). unfold state_at. specialize (A p).
  destruct (instances w !! p) as [x|]; [|done]. cbn. intros [= Hx].
  destruct A as (x' & -> & _ & _ & [St|St]); cbn; congruence.
Qed.

Lemma Destroy_evolves w i inst :
  closed (instances w) -> instances w !! i = Some inst ->
  exists res w',
    Destroy i w = Some (res, w') /\ closed (instances w') /\ evolves w w'.
Proof.
  intros Hc Hi.
  destruct (Destroy_keeps w i inst Hc Hi) as (res & w' & HD & R & G & H & C & A).
  exists res, w'. split; [done|]. split; [done|]. repeat split; [done..|].
  intros p. specialize (A p). destruct (instances w !! p) as [x|]; [|done].
  destruct A as (x' & E & N & S & St). exists x'. repeat split; [done..|].
  destruct St as [St|[St _]]; tauto.
Qed.

Lemma destroy_each_evolves args w :
  closed (instances w) -> live_args (instances w) args ->
  exists res w',
    destroy_each args w = Some (res, w') /\ closed (instances w') /\ evolves w w'.
Proof.
  revert w. induction args as [|[p|] args IH]; intros w Hc Hl.
  - exists None, w. split; [done|]. split; [done|]. apply evolves_refl.
  - unfold live_args in Hl. rewrite non_nil_Some in Hl.
    apply Forall_cons in Hl as [[inst Hi] Hl].
    destruct (Destroy_evolves w p inst Hc Hi) as (res & w1 & HD & Hc1 & He1).
    cbn [destroy_each]. unfold bind. rewrite HD. destruct res as [e|].
    + exists (Some e), w1. done.
    + destruct (IH w1 Hc1) as (res & w' & HB & Hc' & He').
      { by apply (evolves_live w). }
      exists res, w'. split; [done|]. split; [done|]. by apply (evolves_trans w w1).
  - cbn [destroy_each]. apply IH; [done|].
    unfold live_args in *. by rewrite non_nil_None in Hl.
Qed.

(** X4. On a closed store, [BatchDestroy] on arguments that are nil or
    point to an instance always returns (it never dereferences a pointer
    that points nowhere), the store is closed afterwards, and whatever it
    returns, every instance has kept its name and its sidecars, and its
    state is what it was or [Destroyed]: a batch never takes an instance out
    of [Destroyed] and never moves it to any other state. *)
Theorem BatchDestroy_evolves (w : World) (args : list (option loc)) :
  closed (instances w) ->
  live_args (instances w) args ->
  exists res w',
    BatchDestroy args w = Some (res, w') /\
    closed (instances w') /\ evolves w w'.
Proof.
  intros Hc Hl. unfold BatchDestroy.
  destruct (String.eqb _ _).
  - exists None, w. split; [done|]. split; [done|]. apply evolves_refl.
  - by apply destroy_each_evolves.
Qed.

Lemma BatchDestroy_evolves_witness :
  exists res w',
    BatchDestroy [Some 1; None; Some 3; Some 2] world_ok = Some (res, w') /\
    state_at w' 3 = Some StateNone.
Proof.
  destruct (BatchDestroy_evolves world_ok [Some 1; None; Some 3; Some 2])
    as (res & w' & HB & _ & (_ & _ & _ & A)).
  - exact store3_closed.
  - repeat constructor; by eexists.
  - exists res, w'. split; [done|]. specialize (A 3). cbn in A.
    destruct A as (x' & E & _ & _ & [St|St]).
    + unfold state_at. rewrite E. cbn. by rewrite St.
    + exfalso. vm_compute in HB. injection HB as _ <-. vm_compute in E.
      injection E as <-. discriminate.
Defined.

Lemma destroys_all_Destroyed l w w' :
  closed (instances w) -> live (instances w) l -> destroys l w w' ->
  evolves w w' /\ closed (instances w') /\
  forall p, p ∈ l -> state_at w' p = Some Destroyed.
Proof.
  intros Hc Hl Hd. induction Hd as [w|p l w w1 w2 HD Hd IH].
  - split; [apply evolves_refl|]. split; [done|]. intros p Hp. by apply elem_of_nil in Hp.
  - apply Forall_cons in Hl as [[inst Hi] Hl].
    destruct (Destroy_evolves w p inst Hc Hi) as (res & w1' & HD' & Hc1 & He1).
    rewrite HD in HD'. injection HD' as <- <-.
    destruct IH as (He2 & Hc2 & Hall); [done|by apply (evolves_live w)|].
    split; [by apply (evolves_trans w w1)|]. split; [done|].
    intros q [->|Hq]%elem_of_cons; [|by apply Hall].
    apply (evolves_Destroyed w1); [done|]. by apply (Destroy_nil_Destroyed w).
Qed.

Lemma destroy_each_noop args w :
  (forall p, p ∈ non_nil args -> state_at w p = Some Destroyed) ->
  destroy_each args w = Some (None, w).
Proof.
  induction args as [|[p|] args IH]; intros H.
  - done.
  - rewrite non_nil_Some in H. cbn [destroy_each]. unfold bind.
    assert (Destroy p w = Some (None, w)) as ->.
    { specialize (H p (list_elem_of_here _ _)). unfold state_at in H.
      destruct (instances w !! p) as [x|] eqn:Hx; [|done].
      cbn in H. injection H as H.
      unfold Destroy, bind, load. rewrite Hx. by rewrite bool_decide_eq_true_2. }
    apply IH. intros q Hq. apply H. by apply list_elem_of_further.
  - cbn [destroy_each]. apply IH. intros q Hq. apply H. by rewrite non_nil_None.
Qed.

Lemma destroy_each_app a b w :
  destroy_each (a ++ b) w =
  match destroy_each a w with
  | Some (None, w1) => destroy_each b w1
  | r => r
  end.
Proof.
  revert w. induction a as [|[p|] a IH]; intros w; cbn [app destroy_each].
  - done.
  - unfold bind. destruct (Destroy p w) as [[[e|] w1]|]; [done| |done]. apply IH.
  - apply IH.
Qed.

(** X5. A batch that went through can be run again: on a closed store,
    when [BatchDestroy] returned nil, running it again on the same
    arguments returns nil and changes nothing; and listing every argument
    twice in the first place gives the same world as listing it once. *)
Theorem BatchDestroy_again (w w' : World) (args : list (option loc)) :
  closed (instances w) ->
  live_args (instances w) args ->
  BatchDestroy args w = Some (None, w') ->
  BatchDestroy args w' = Some (None, w') /\
  BatchDestroy (args ++ args) w = Some (None, w').
Proof.
  intros Hc Hl HB. unfold BatchDestroy in *.
  destruct (String.eqb (getenv w "KNUU_SKIP_CLEANUP") "true") eqn:Henv.
  - injection HB as <-. by rewrite Henv.
  - pose proof HB as Hd. apply destroy_each_nil in Hd.
    destruct (destroys_all_Destroyed _ _ _ Hc Hl Hd) as ((_ & G & _) & _ & Hall).
    rewrite G, Henv. pose proof (destroy_each_noop args w' Hall) as Hnoop.
    split; [exact Hnoop|]. by rewrite destroy_each_app, HB.
Qed.

Lemma BatchDestroy_again_witness :
  exists w',
    BatchDestroy [Some 0; None; Some 1] world_ok = Some (None, w') /\
    BatchDestroy [Some 0; None; Some 1] w' = Some (None, w') /\
    history w' = [DeletePod "web"; DeleteResources "web";
                  DeleteResources "side-a"; DeleteResources "side-b"].
Proof.
  destruct (BatchDestroy [Some 0; None; Some 1] world_ok) as [[[e|] w']|] eqn:HB;
    try (vm_compute in HB; discriminate).
  exists w'. split; [done|].
  destruct (BatchDestroy_again world_ok w' [Some 0; None; Some 1]) as [H _].
  - exact store3_closed.
  - repeat constructor; by eexists.
  - exact HB.
  - split; [exact H|]. vm_compute in HB. by injection HB as <-.
Defined.

End knuu_more.

(* ===================================================================== *)
(** * More on the builder factory: recording, pushing, reading *)
(* ===================================================================== *)

Module container_more.
Import container container_facts.

(** ** The recording calls *)

Lemma apply_edit_line f e :
  apply_edit f e = append_instruction f (line_of e).
Proof. by destruct e. Qed.

(** X6. The recording calls ([ExecuteCmdInBuilder], [AddToBuilder],
    [SetEnvVar], [SetUser]) only append: after any sequence of them the
    instruction list is the old one followed by one line per call, in the
    order of the calls, and the base image, the destination image name and
    the build context are what they were; each call returns a nil error. *)
Theorem edits_append_in_order (f : BuilderFactory) (es : list Edit) :
  dockerFileInstructions (edited f es)
  = dockerFileInstructions f ++ List.map line_of es /\
  imageNameFrom (edited f es) = imageNameFrom f /\
  imageNameTo (edited f es) = imageNameTo f /\
  buildContext (edited f es) = buildContext f /\
  (forall command, (ExecuteCmdInBuilder f command).2 = ("", None)) /\
  (forall s d c, (AddToBuilder f s d c).2 = None) /\
  (forall n v, (SetEnvVar f n v).2 = None) /\
  (forall u, (SetUser f u).2 = None).
Proof.
  split; [|split; [|split; [|split]]]; [| | | |done].
  - revert f. induction es as [|e es IH]; intros f; cbn.
    + by rewrite app_nil_r.
    + unfold edited in IH. rewrite IH, apply_edit_line. cbn.
      by rewrite <- app_assoc.
  - apply edited_fields.
  - apply edited_fields.
  - apply edited_fields.
Qed.

(** ** [PushBuilderImage] on a changed factory *)



(** ** Reading after a push or a build *)

Lemma PushBuilderImage_factory f imageName w :
  Changed f = true ->
  (PushBuilderImage f imageName w).1.1 = set_imageNameTo f imageName.
Proof.
  intros Hc. unfold PushBuilderImage. rewrite Hc. cbn [negb].
  unfold call. cbn [respond calls].
  destruct (IsNotExist _); cbn [respond calls];
    repeat (destruct (reply_err _)); reflexivity.
Qed.

Lemma read_tar_not_refused items e :
  read_tar items = Some (inl e) -> e <> ErrNoImageNameProvided.
Proof. intros H%read_tar_error [= ->]. by destruct H. Qed.

Lemma ReadFileFromBuilder_named f filePath w :
  imageNameTo f <> "" ->
  (ReadFileFromBuilder f filePath w).1 <> inl ErrNoImageNameProvided /\
  exists rest,
    calls (ReadFileFromBuilder f filePath w).2 = calls w ++ create_call f :: rest.
Proof.
  intros Hn. unfold ReadFileFromBuilder. apply String.eqb_neq in Hn. rewrite Hn.
  unfold call. cbn [respond calls]. fold (create_call f).
  destruct (reply_err (respond w (calls w) (create_call f))) as [e|].
  { split; [done|]. by exists []. }
  unfold read_started, stop_and_remove, call. cbn [respond calls].
  destruct (reply_err (respond w _ (ContainerStart _))) as [e|].
  { split; [done|]. cbn. eexists. by rewrite <- !app_assoc. }
  destruct (reply_err (respond w _ (CopyFromContainer _ _))) as [e|].
  { split; [done|]. cbn. eexists. by rewrite <- !app_assoc. }
  split.
  - cbn. destruct (read_tar _) as [[e|d]|] eqn:Hr; [|done..].
    intros [= ->]. by apply read_tar_not_refused in Hr.
  - cbn. eexists. by rewrite <- !app_assoc.
Qed.

(** X8. [PushBuilderImage] records the image name before it writes or
    builds anything: after a push of a changed factory under a name that is
    not empty, whether the push succeeded or failed, [ReadFileFromBuilder]
    on the resulting factory no longer returns [ErrNoImageNameProvided] but
    goes on to create a container from that image name. *)
Theorem read_after_push (f : BuilderFactory) (imageName filePath : string)
  (w w2 : World) :
  Changed f = true ->
  imageName <> "" ->
  let f' := (PushBuilderImage f imageName w).1.1 in
  (ReadFileFromBuilder f' filePath w2).1 <> inl ErrNoImageNameProvided /\
  exists rest,
    calls (ReadFileFromBuilder f' filePath w2).2
    = calls w2 ++ ContainerCreate imageName ["tail"; "-f"; "/dev/null"] :: rest.
Proof.
  intros Hc Hn. cbn zeta. rewrite (PushBuilderImage_factory f imageName w Hc).
  apply (ReadFileFromBuilder_named (set_imageNameTo f imageName) filePath w2 Hn).
Qed.

Lemma read_after_push_witness :
  (PushBuilderImage pushed_factory "ttl.sh/app:2h" write_fails).1.2
  = Some (coded "FailedToWriteDockerfile" []
                (Some (foreign "read-only file system"))) /\
  (ReadFileFromBuilder
     (PushBuilderImage pushed_factory "ttl.sh/app:2h" write_fails).1.1
     "/etc/hosts" (host data_archive)).1
  <> inl ErrNoImageNameProvided.
Proof.
  split; [reflexivity|].
  destruct (read_after_push pushed_factory "ttl.sh/app:2h" "/etc/hosts" write_fails
              (host data_archive)) as [H _]; [reflexivity|discriminate|].
  exact H.
Defined.

(** X9. [BuildImageFromGitRepo] leaves the factory as it is when the build
    context cannot be resolved, and makes no other call; once the context is
    resolved it records the image name, whatever happens next, asks for the
    default cache options of that context, and calls the builder only when
    it got them, with the image name as name and destination; the error of
    the builder is returned as it is. The instruction list plays no part. *)
Theorem BuildImageFromGitRepo_steps (f : BuilderFactory) (gitRepo imageName : string)
  (w : World) :
  let resolve := GitBuildContext gitRepo in
  let ctx := reply_text (respond w (calls w) resolve) in
  let cache := CacheDefault ctx in
  let h1 := calls w ++ [resolve] in
  let h2 := h1 ++ [cache] in
  let build :=
    BuilderBuild {| ImageName := imageName; Destination := imageName;
                    BuildCtx := Resolved ctx;
                    Cache := Some (reply_text (respond w h1 cache)) |} in
  let out := BuildImageFromGitRepo f gitRepo imageName w in
  respond out.2 = respond w /\
  match reply_err (respond w (calls w) resolve) with
  | Some e =>
      out.1 = (f, Some (coded "FailedToGetBuildContext" [] (Some e))) /\
      calls out.2 = h1
  | None =>
      out.1.1 = set_imageNameTo f imageName /\
      match reply_err (respond w h1 cache) with
      | Some e =>
          out.1.2 = Some (coded "FailedToGetDefaultCacheOptions" [] (Some e)) /\
          calls out.2 = h2
      | None =>
          out.1.2 = reply_err (respond w h2 build) /\
          calls out.2 = h2 ++ [build]
      end
  end.
Proof.
  cbn zeta. unfold BuildImageFromGitRepo, call. cbn [respond calls].
  destruct (reply_err (respond w (calls w) (GitBuildContext gitRepo))); [done|].
  cbn [respond calls].
  destruct (reply_err (respond w _ (CacheDefault _))); done.
Qed.

(** ** The exits of [ReadFileFromBuilder] before the archive is read *)

(** X10. When the throwaway container cannot be created,
    [ReadFileFromBuilder] returns [ErrFailedToCreateContainer] around the
    cause and nothing is stopped or removed. When the container cannot be
    started, it returns [ErrFailedToStartContainer] and no copy is asked
    for; when the copy fails, it returns [ErrFailedToCopyFileFromContainer]
    and no reader is closed; in both cases the container is stopped and
    removed. *)
Theorem ReadFileFromBuilder_early_exits (f : BuilderFactory) (filePath : string)
  (w : World) :
  imageNameTo f <> "" ->
  let create := create_call f in
  let id := reply_id (respond w (calls w) create) in
  let start := ContainerStart id in
  let copy := CopyFromContainer id filePath in
  let cleanup := [ContainerStop id stop_timeout; ContainerRemove id] in
  let out := ReadFileFromBuilder f filePath w in
  match reply_err (respond w (calls w) create) with
  | Some e =>
      out.1 = inl (coded "FailedToCreateContainer" [] (Some e)) /\
      calls out.2 = calls w ++ [create]
  | None =>
      match reply_err (respond w (calls w ++ [create]) start) with
      | Some e =>
          out.1 = inl (coded "FailedToStartContainer" [] (Some e)) /\
          calls out.2 = calls w ++ [create; start] ++ cleanup
      | None =>
          match reply_err (respond w ((calls w ++ [create]) ++ [start]) copy) with
          | Some e =>
              out.1 = inl (coded "FailedToCopyFileFromContainer" [] (Some e)) /\
              calls out.2 = calls w ++ [create; start; copy] ++ cleanup
          | None =>
              calls out.2
              = calls w ++ [create; start; copy; ReaderClose id] ++ cleanup
          end
      end
  end.
Proof.
  intros Hn. cbn zeta. unfold ReadFileFromBuilder.
  apply String.eqb_neq in Hn. rewrite Hn.
  unfold call. cbn [respond calls]. fold (create_call f).
  destruct (reply_err (respond w (calls w) (create_call f))); [done|].
  unfold read_started, stop_and_remove, call. cbn [respond calls].
  destruct (reply_err (respond w _ (ContainerStart _))).
  { cbn. by rewrite <- !app_assoc. }
  destruct (reply_err (respond w _ (CopyFromContainer _ _))).
  { cbn. by rewrite <- !app_assoc. }
  cbn. by rewrite <- !app_assoc.
Qed.

Lemma ReadFileFromBuilder_early_exits_witness :
  (ReadFileFromBuilder pushed_factory "/etc/hosts" no_image).1
  = inl (coded "FailedToCreateContainer" [] (Some (foreign "no such image"))) /\
  calls (ReadFileFromBuilder pushed_factory "/etc/hosts" no_image).2
  = [] ++ [create_call pushed_factory].
Proof.
  assert (imageNameTo pushed_factory <> "") as Hn by discriminate.
  exact (ReadFileFromBuilder_early_exits pushed_factory "/etc/hosts" no_image Hn).
Defined.

(** X11. What the clean-up calls answer never shows in the result of
    [ReadFileFromBuilder]: two worlds with the same history that answer
    alike to every call but [ContainerStop], [ContainerRemove] and the
    closing of the reader give the same result and the same calls. *)
Theorem cleanup_errors_do_not_mask (f : BuilderFactory) (filePath : string)
  (w1 w2 : World) :
  calls w1 = calls w2 ->
  (forall h c, is_cleanup c = false -> respond w1 h c = respond w2 h c) ->
  (ReadFileFromBuilder f filePath w1).1 = (ReadFileFromBuilder f filePath w2).1 /\
  calls (ReadFileFromBuilder f filePath w1).2
  = calls (ReadFileFromBuilder f filePath w2).2.
Proof.
  intros Hc Hr. unfold ReadFileFromBuilder.
  destruct (String.eqb (imageNameTo f) ""); [done|].
  unfold call. cbn [respond calls]. rewrite Hc, (Hr _ (ContainerCreate _ _) eq_refl).
  destruct (reply_err (respond w2 (calls w2) _)); [done|].
  unfold read_started, stop_and_remove, call. cbn [respond calls].
  rewrite (Hr _ (ContainerStart _) eq_refl).
  destruct (reply_err (respond w2 _ (ContainerStart _))); [done|].
  rewrite (Hr _ (CopyFromContainer _ _) eq_refl).
  destruct (reply_err (respond w2 _ (CopyFromContainer _ _))); done.
Qed.

Lemma cleanup_errors_do_not_mask_witness :
  (ReadFileFromBuilder pushed_factory "/data" (cleanup_fails data_archive)).1
  = inr [x41].
Proof.
  destruct (cleanup_errors_do_not_mask pushed_factory "/data"
              (cleanup_fails data_archive) (host data_archive)) as [H _].
  - reflexivity.
  - intros h c Hc. cbn. by rewrite Hc.
  - rewrite H. reflexivity.
Defined.

End container_more.

(* ===================================================================== *)
(** * More on [GenerateImageHash]: what is hashed and what is not *)
(* ===================================================================== *)

Module container_hash.
Import container container_facts.

(** ** When the hash is there, and what it looks like *)




Lemma hashed_Some_eq f1 f2 fs1 fs2 x :
  hashed f1 fs1 = Some x -> hashed f2 fs2 = Some x ->
  GenerateImageHash f1 fs1 = GenerateImageHash f2 fs2.
Proof.
  intros H1 H2.
  pose proof (GenerateImageHash_hashed f1 fs1) as G1.
  pose proof (GenerateImageHash_hashed f2 fs2) as G2.
  rewrite H1 in G1. rewrite H2 in G2. congruence.
Qed.


Lemma compress_length h b : List.length (Sha256.compress h b) = 8.
Proof. reflexivity. Qed.

Lemma fold_compress_length bs h :
  List.length h = 8 ->
  List.length (fold_left Sha256.compress bs h) = 8.
Proof.
  revert h. induction bs as [|b bs IH]; intros h Hh; [done|].
  cbn [fold_left]. apply IH. apply compress_length.
Qed.

Lemma flat_map_be32_length l :
  List.length (flat_map Sha256.be32 l) = 4 * List.length l.
Proof.
  induction l as [|x l IH]; [done|].
  change (flat_map Sha256.be32 (x :: l))
    with (Sha256.be32 x ++ flat_map Sha256.be32 l).
  rewrite length_app, IH. cbn [List.length Sha256.be32]. lia.
Qed.

Lemma Sum256_length msg : List.length (Sha256.Sum256 msg) = 32.
Proof.
  unfold Sha256.Sum256. cbv zeta.
  rewrite flat_map_be32_length, fold_compress_length; [done|reflexivity].
Qed.

Lemma hex_byte_hex b :
  forallb is_hex (list_ascii_of_string (hex_byte b)) = true.
Proof. destruct b; reflexivity. Qed.

Lemma list_ascii_app s1 s2 :
  list_ascii_of_string (s1 +:+ s2)
  = list_ascii_of_string s1 ++ list_ascii_of_string s2.
Proof.
  induction s1 as [|c s1 IH]; [done|].
  change (String c s1 +:+ s2) with (String c (s1 +:+ s2)). cbn. by rewrite IH.
Qed.

Lemma Sprintf_x_shape bs :
  String.length (Sprintf_x bs) = 2 * List.length bs /\
  forallb is_hex (list_ascii_of_string (Sprintf_x bs)) = true.
Proof.
  induction bs as [|b bs [IH1 IH2]]; [done|]. cbn [Sprintf_x List.length]. split.
  - rewrite length_append, IH1.
    destruct (hex_byte_app b EmptyString) as (c1 & c2 & E).
    assert (hex_byte b = String c1 (String c2 EmptyString)) as ->.
    { rewrite <- E. clear. induction (hex_byte b) as [|c s IH]; [done|].
      change (String c s +:+ "") with (String c (s +:+ "")). by rewrite <- IH. }
    cbn. lia.
  - rewrite list_ascii_app, forallb_app, hex_byte_hex, IH2. done.
Qed.

(** X13. A hash that [GenerateImageHash] returns without error is a string
    of 64 lowercase hexadecimal digits. *)
Theorem GenerateImageHash_shape (f : BuilderFactory) (fs : FileSystem) (h : string) :
  GenerateImageHash f fs = (h, None) ->
  String.length h = 64 /\
  forallb is_hex (list_ascii_of_string h) = true.
Proof.
  intros (x & _ & ->)%hashed_Some.
  destruct (Sprintf_x_shape (Sha256.Sum256 x)) as [H1 H2].
  rewrite Sum256_length in H1. done.
Qed.

Lemma GenerateImageHash_shape_witness :
  GenerateImageHash pushed_factory (disk site site)
  = ("2385542d1a51a6c10329b3455d4fcd6ae629a0b99a89710d2c10a8018d2fed0e", None) /\
  String.length (GenerateImageHash pushed_factory (disk site site)).1 = 64.
Proof.
  assert (GenerateImageHash pushed_factory (disk site site)
          = ("2385542d1a51a6c10329b3455d4fcd6ae629a0b99a89710d2c10a8018d2fed0e",
             None)) as H by (vm_compute; reflexivity).
  split; [exact H|].
  destruct (GenerateImageHash_shape _ _ _ H) as [Hlen _].
  rewrite H. exact Hlen.
Defined.

(** ** What the hash does not see *)







Lemma list_byte_app s1 s2 :
  list_byte_of_string (s1 +:+ s2) = list_byte_of_string s1 ++ list_byte_of_string s2.
Proof.
  unfold list_byte_of_string. by rewrite list_ascii_app, List.map_app.
Qed.

Lemma append_assoc (a b c : string) : (a +:+ b) +:+ c = a +:+ b +:+ c.
Proof.
  induction a as [|x a IH]; [done|].
  change ((String x a +:+ b) +:+ c) with (String x ((a +:+ b) +:+ c)).
  by rewrite IH.
Qed.

Lemma Join_last (l : list string) (s t sep : string) :
  Join (l ++ [s +:+ t]) sep = Join (l ++ [s]) sep +:+ t.
Proof.
  unfold Join. induction l as [|a [|b l] IH].
  - done.
  - cbn. by rewrite !append_assoc.
  - change (String.concat sep ((a :: b :: l) ++ [s +:+ t]))
      with (a +:+ sep +:+ String.concat sep ((b :: l) ++ [s +:+ t])).
    change (String.concat sep ((a :: b :: l) ++ [s]))
      with (a +:+ sep +:+ String.concat sep ((b :: l) ++ [s])).
    by rewrite IH, !append_assoc.
Qed.

(** X17. The boundary between the instructions and the files is not hashed
    either: a factory whose last instruction ends with a text, and a factory
    without that text whose build context starts with the bytes of the text,
    get the same result. *)
Theorem manifest_boundary_is_not_hashed (f f' : BuilderFactory)
  (fs fs' : FileSystem) (l : list string) (s t : string) (n n' : node)
  (c : list byte) :
  dockerFileInstructions f = l ++ [s +:+ t] ->
  dockerFileInstructions f' = l ++ [s] ->
  fs (buildContext f) = inr n -> files_of n = Some c ->
  fs' (buildContext f') = inr n' ->
  files_of n' = Some (list_byte_of_string t ++ c) ->
  GenerateImageHash f fs = GenerateImageHash f' fs'.
Proof.
  intros Hl Hl' Hn Hc Hn' Hc'.
  apply (hashed_Some_eq f f' fs fs'
           (list_byte_of_string (Join (l ++ [s]) LF) ++ list_byte_of_string t ++ c)).
  - unfold hashed. rewrite Hn, Hc, Hl, Join_last, list_byte_app.
    by rewrite <- app_assoc.
  - unfold hashed. by rewrite Hn', Hc', Hl'.
Qed.

(** ** The statements above on small build contexts *)





Lemma manifest_boundary_is_not_hashed_witness :
  GenerateImageHash pushed_factory
    (disk (two_files "a" "b" [x61] [x62]) site)
  = GenerateImageHash shorter_factory
      (disk site (two_files "a" "b" [x20; x68; x69; x61] [x62])).
Proof.
  apply (manifest_boundary_is_not_hashed pushed_factory shorter_factory _ _
           ["FROM alpine"] "RUN echo" " hi"
           (two_files "a" "b" [x61] [x62])
           (two_files "a" "b" [x20; x68; x69; x61] [x62]) [x61; x62]);
    reflexivity.
Defined.

End container_hash.

(* ===================================================================== *)
(** * The error values of [kaniko]: rendering and wrapping *)
(* ===================================================================== *)

Module kaniko_facts.
Import kaniko.

Lemma Wrap_lookup e c m e' :
  (Wrap e c m).1 !! e' =
  if decide (e = e') then (fun x => set_Err x c) <$> m !! e' else m !! e'.
Proof.
  unfold Wrap. cbn. destruct (decide (e = e')) as [->|Hne].
  - by rewrite lookup_alter_eq.
  - by rewrite lookup_alter_ne.
Qed.

(** X18. After [Wrap], the error renders as its message, a colon and the
    text of the cause, and as its bare message when the cause is nil (which
    clears an earlier cause); [Wrap] returns the pointer it was called on,
    keeps the code and the message, and touches no other error value. *)
Theorem Error_after_Wrap (m : gmap ref Error) (e : ref) (x : Error) (fuel : nat) :
  m !! e = Some x ->
  (forall s, Error_method (S fuel) (Wrap e (outside s) m).1 e
             = returned (Message x +:+ ": " +:+ s)) /\
  Error_method (S fuel) (Wrap e no_cause m).1 e = returned (Message x) /\
  (forall c,
      (Wrap e c m).2 = inside e /\
      (Wrap e c m).1 !! e = Some {| Code := Code x; Message := Message x; Err := c |} /\
      forall e', e' <> e -> (Wrap e c m).1 !! e' = m !! e').
Proof.
  intros He. split; [|split].
  - intros s. cbn [Error_method]. rewrite Wrap_lookup, decide_True, He by done. done.
  - cbn [Error_method]. rewrite Wrap_lookup, decide_True, He by done. done.
  - intros c. split; [done|]. split.
    + by rewrite Wrap_lookup, decide_True, He.
    + intros e' Hne. by rewrite Wrap_lookup, decide_False.
Qed.

Lemma Error_after_Wrap_witness :
  Error_method 1 (Wrap ErrCreatingJob (outside "connection refused") globals).1
               ErrCreatingJob
  = returned "error creating Job: connection refused".
Proof.
  destruct (Error_after_Wrap globals ErrCreatingJob
              (sentinel "CreatingJob" "error creating Job") 0 eq_refl) as [H _].
  apply H.
Defined.

(** X19. An error wrapped around itself renders as its bare message: the
    method does not recurse. *)
Theorem Error_of_self_wrap (m : gmap ref Error) (e : ref) (x : Error) (fuel : nat) :
  m !! e = Some x ->
  Error_method (S fuel) (Wrap e (inside e) m).1 e = returned (Message x).
Proof.
  intros He. cbn [Error_method]. rewrite Wrap_lookup, decide_True, He by done.
  cbn. by rewrite decide_True.
Qed.

Lemma Error_of_self_wrap_witness :
  Error_method 1 (Wrap ErrBuildFailed (inside ErrBuildFailed) globals).1 ErrBuildFailed
  = returned "build failed".
Proof. apply (Error_of_self_wrap globals ErrBuildFailed _ 0 eq_refl). Defined.

(** X20. The error values are shared: [Wrap] overwrites the cause in place,
    so wrapping the same value a second time loses the first cause, also
    for whoever holds the result of the first [Wrap], which is the same
    pointer. *)
Theorem Wrap_overwrites (m : gmap ref Error) (e : ref) (x : Error)
  (c1 c2 : cause) (fuel : nat) :
  m !! e = Some x ->
  (Wrap e c2 (Wrap e c1 m).1).1 = (Wrap e c2 m).1 /\
  (Wrap e c2 (Wrap e c1 m).1).2 = (Wrap e c1 m).2 /\
  (forall s1 s2,
      c1 = outside s1 -> c2 = outside s2 ->
      Error_method (S fuel) (Wrap e c2 (Wrap e c1 m).1).1 e
      = returned (Message x +:+ ": " +:+ s2)).
Proof.
  intros He.
  assert ((Wrap e c2 (Wrap e c1 m).1).1 = (Wrap e c2 m).1) as Heq.
  { apply map_eq. intros e'. rewrite !Wrap_lookup.
    destruct (decide (e = e')); [|done]. by destruct (m !! e'). }
  split; [exact Heq|]. split; [done|].
  intros s1 s2 -> ->. rewrite Heq. cbn [Error_method].
  rewrite Wrap_lookup, decide_True, He by done. done.
Qed.

Lemma Wrap_overwrites_witness :
  Error_method 1
    (Wrap ErrDeletingJob (outside "timeout")
       (Wrap ErrDeletingJob (outside "not found") globals).1).1 ErrDeletingJob
  = returned "error deleting Job: timeout".
Proof.
  destruct (Wrap_overwrites globals ErrDeletingJob
              (sentinel "DeletingJob" "error deleting Job")
              (outside "not found") (outside "timeout") 0 eq_refl) as (_ & _ & H).
  by apply (H "not found" "timeout").
Defined.

Lemma Join_cons (a : string) (l : list string) (sep : string) :
  l <> [] -> Join (a :: l) sep = a +:+ sep +:+ Join l sep.
Proof. by destruct l. Qed.

Lemma linked_msgs m es msgs : linked m es msgs -> msgs <> [].
Proof. by destruct 1. Qed.

(** X21. A chain of causes renders as the messages along the chain, joined
    by a colon and a space, ending with the text of the last cause when it
    is of another type; the recursion is as deep as the chain is long. *)
Theorem Error_of_chain (m : gmap ref Error) (e : ref) (rest : list ref)
  (msgs : list string) (fuel : nat) :
  linked m (e :: rest) msgs ->
  List.length (e :: rest) <= fuel ->
  Error_method fuel m e = returned (Join msgs ": ").
Proof.
  intros Hl. revert fuel.
  remember (e :: rest) as es eqn:Hes. revert e rest Hes.
  induction Hl as [e0 x He Hx|e0 x s He Hx|e0 e' x rest' msgs He Hx Hne Hl IH];
    intros e rest [= <- <-] fuel Hf.
  - destruct fuel as [|fuel]; [cbn in Hf; lia|]. cbn [Error_method].
    by rewrite He, Hx.
  - destruct fuel as [|fuel]; [cbn in Hf; lia|]. cbn [Error_method].
    by rewrite He, Hx.
  - destruct fuel as [|fuel]; [cbn in Hf; lia|]. cbn [Error_method].
    rewrite He, Hx, decide_False by done.
    rewrite (IH e' rest' eq_refl fuel) by (cbn in *; lia).
    rewrite Join_cons; [done|]. by apply (linked_msgs m (e' :: rest')).
Qed.

Lemma Error_of_chain_witness :
  Error_method 3
    (Wrap ErrBuildFailed (Wrap ErrWatchingJob (outside "EOF") globals).2
       (Wrap ErrWatchingJob (outside "EOF") globals).1).1 ErrBuildFailed
  = returned "build failed: error watching Job: EOF".
Proof.
  apply (Error_of_chain _ ErrBuildFailed [ErrWatchingJob]
           ["build failed"; "error watching Job"; "EOF"] 3); [|cbn; lia].
  apply (linked_in _ ErrBuildFailed ErrWatchingJob
           {| Code := "BuildFailed"; Message := "build failed";
              Err := inside ErrWatchingJob |}); [reflexivity|reflexivity|done|].
  apply (linked_out _ ErrWatchingJob
           {| Code := "WatchingJob"; Message := "error watching Job";
              Err := outside "EOF" |}); reflexivity.
Defined.

(** X22. The test for an error wrapped around itself does not see longer
    cycles: when two different errors are wrapped around each other, the
    method [Error] of either never returns, however deep the recursion is
    allowed to go. *)
Theorem Error_of_mutual_wrap (m : gmap ref Error) (a b : ref) (xa xb : Error) :
  a <> b ->
  m !! a = Some xa -> m !! b = Some xb ->
  let m' := (Wrap b (inside a) (Wrap a (inside b) m).1).1 in
  forall fuel,
    Error_method fuel m' a = too_deep /\ Error_method fuel m' b = too_deep.
Proof.
  intros Hne Ha Hb m' fuel.
  assert (m' !! a = Some (set_Err xa (inside b))) as Ha'.
  { unfold m'. rewrite Wrap_lookup, decide_False by done.
    by rewrite Wrap_lookup, decide_True, Ha. }
  assert (m' !! b = Some (set_Err xb (inside a))) as Hb'.
  { unfold m'. rewrite Wrap_lookup, decide_True by done.
    by rewrite Wrap_lookup, decide_False, Hb. }
  induction fuel as [|fuel [IHa IHb]]; [done|].
  cbn [Error_method]. rewrite Ha', Hb'. cbn [Err set_Err].
  rewrite !decide_False by done. by rewrite IHa, IHb.
Qed.

Lemma Error_of_mutual_wrap_witness :
  Error_method 1000
    (Wrap ErrDeletingPods (inside ErrCleaningUp)
       (Wrap ErrCleaningUp (inside ErrDeletingPods) globals).1).1 ErrCleaningUp
  = too_deep.
Proof.
  destruct (Error_of_mutual_wrap globals ErrCleaningUp ErrDeletingPods
              (sentinel "CleaningUp" "error cleaning up")
              (sentinel "DeletingPods" "error deleting Pods")) with (fuel := 1000)
    as [H _]; [done|reflexivity|reflexivity|].
  exact H.
Defined.

End kaniko_facts.
